(** * GNATFinder: the quadtree index and the causal kernel

    A shallow embedding of [quadtree.c], [gnats.c], [raster.c], [network.c]
    and [gnatfinder.c], and the properties of the specification stated
    over it.

    Numeric model.  The C code mixes [long] timestamps, [int] and [float].
    - [long] and [int] values are integers of [Z]; the code performs no
      arithmetic on them that is meant to wrap, and signed overflow is
      undefined in C, so the embedding covers the runs without overflow.
    - [float] values are exact rationals of [Q]: every operation of the code
      ([+], [-], [/], comparisons) is the exact one.  Rounding of binary32 is
      not modelled; the concrete inputs used below (integers below 2^24
      and halves, quarters and eighths of small integers) are exactly
      representable, and on them the exact result is the binary32 result.
    - the conversion of a [float] to [int], which C performs implicitly at
      every call of [abs] (declared [int abs(int)] in stdlib.h), truncates
      toward zero: [int_of_float].  C leaves the conversion undefined when
      the truncated value is not an [int]; the embedding covers the runs
      where it is. *)

From Stdlib Require Import ZArith QArith Qround Qabs List Bool Lia Lqa Permutation.
Import ListNotations.

Local Open Scope Q_scope.

(** ** C arithmetic *)

Definition float := Q.

(** [(float) n] for an integer [n]. *)
Definition float_of_long (n : Z) : float := inject_Z n.

(** [(int) x]: the fractional part is discarded (truncation toward zero). *)
Definition int_of_float (x : float) : Z := Z.quot (Qnum x) (Zpos (Qden x)).

(** [abs] of stdlib.h. *)
Definition abs (n : Z) : Z := Z.abs n.

(** [x < y] and [x <= y] on floats, as C truth values. *)
Definition flt (x y : float) : bool := negb (Qle_bool y x).
Definition fle (x y : float) : bool := Qle_bool x y.

(** ** quadtree.h: data structures *)

Definition QT_MAX_CAP : Z := 4.

Record Spike := mkSpike {
  n_id : Z;   (* neuron id *)
  ts   : Z    (* timestamp *)
}.

(** The [next]/[prev] links of the C structs are the list structure of the
    lists that hold them. *)
Record SpikePair := mkSpikePair {
  sp1 : Spike;
  sp2 : Spike
}.

Record BoundingBox := mkBBox {
  c_x : float;   (* center x *)
  c_y : float;   (* center y *)
  w2  : float    (* half-width *)
}.

(** A node whose four child pointers are NULL is a [Leaf]; [QTreeSubdivide]
    sets the four together and nothing clears them, which gives [Quad]. *)
Inductive QuadTree :=
| Leaf (capacity : Z) (bdry : BoundingBox) (pairs : list SpikePair)
| Quad (capacity : Z) (bdry : BoundingBox) (pairs : list SpikePair)
       (NW SW NE SE : QuadTree).

Definition capacity (qt : QuadTree) : Z :=
  match qt with Leaf c _ _ | Quad c _ _ _ _ _ _ => c end.
Definition bdry (qt : QuadTree) : BoundingBox :=
  match qt with Leaf _ b _ | Quad _ b _ _ _ _ _ => b end.
Definition pairs (qt : QuadTree) : list SpikePair :=
  match qt with Leaf _ _ p | Quad _ _ p _ _ _ _ => p end.

(** ** quadtree.c: spikes and bounding boxes *)

Definition create_spike (neuron_id : Z) (timestamp : Z) : Spike :=
  mkSpike (neuron_id mod 2 ^ 32) timestamp.

Definition spike_equals (a b : Spike) : bool :=
  (n_id a =? n_id b)%Z && (ts a =? ts b)%Z.

Definition create_spike_pair (a b : Spike) : SpikePair := mkSpikePair a b.

Definition BBoxCreate (center_x center_y half_width : float) : BoundingBox :=
  mkBBox center_x center_y half_width.

Definition BBoxContainsPoint (bb : BoundingBox) (spp : SpikePair) : bool :=
  let s1 := flt (float_of_long
                   (abs (int_of_float (float_of_long (ts (sp1 spp)) - c_x bb))))
                (w2 bb) in
  let s2 := flt (float_of_long
                   (abs (int_of_float (float_of_long (ts (sp2 spp)) - c_y bb))))
                (w2 bb) in
  s1 && s2.

Definition BBoxIntersects (bb1 bb2 : BoundingBox) : bool :=
  let d := w2 bb1 + w2 bb2 in
  let b1 := fle (float_of_long (abs (int_of_float (c_x bb2 - c_x bb1)))) d in
  let b2 := fle (float_of_long (abs (int_of_float (c_y bb2 - c_y bb1)))) d in
  b1 && b2.

(** The point of the plane a spike pair stands for, and the containment and
    intersection tests as the specification words them (real absolute
    values). *)
Definition point (spp : SpikePair) : Z * Z := (ts (sp1 spp), ts (sp2 spp)).

Definition strictly_inside (bb : BoundingBox) (spp : SpikePair) : Prop :=
  Qabs (float_of_long (ts (sp1 spp)) - c_x bb) < w2 bb /\
  Qabs (float_of_long (ts (sp2 spp)) - c_y bb) < w2 bb.

Definition boxes_touch (bb1 bb2 : BoundingBox) : Prop :=
  Qabs (c_x bb2 - c_x bb1) <= w2 bb1 + w2 bb2 /\
  Qabs (c_y bb2 - c_y bb1) <= w2 bb1 + w2 bb2.

(** The distance the two box tests compare: the difference, truncated to an
    [int], then [abs]. *)
Definition truncated_distance (x : float) : float :=
  float_of_long (abs (int_of_float x)).

(** ** quadtree.c: the quadtree *)

Definition QTreeCreate (bbox : BoundingBox) : QuadTree := Leaf 0 bbox [].

(** The four children [NW], [SW], [NE], [SE] of a subdivided node. *)
Definition children : Type := QuadTree * QuadTree * QuadTree * QuadTree.

(** [QTreeInsert] and [QTreeSubdivide] call each other.  The recursion is
    bounded by a budget [fuel] on its depth; a result [None] stands for a
    run that does not return within the budget, or that dereferences a NULL
    pointer.  A result [Some (flag, qt')] carries the value returned and the
    tree as the call leaves it. *)
Section Insertion.

(** The recursive call [QTreeInsert(child, spp)], with the budget it is
    left. *)
Variable insert : QuadTree -> SpikePair -> option (bool * QuadTree).

(** The four attempts [if (QTreeInsert(qt->NW, spp)) ...; if
    (QTreeInsert(qt->SW, spp)) ...; NE; SE], stopping at the first that
    returns TRUE.  The flag is FALSE when the four of them failed. *)
Definition insert_into_children (k : children) (spp : SpikePair)
  : option (bool * children) :=
  let '(nw, sw, ne, se) := k in
  match insert nw spp with
  | None => None
  | Some (true, nw') => Some (true, (nw', sw, ne, se))
  | Some (false, nw') =>
    match insert sw spp with
    | None => None
    | Some (true, sw') => Some (true, (nw', sw', ne, se))
    | Some (false, sw') =>
      match insert ne spp with
      | None => None
      | Some (true, ne') => Some (true, (nw', sw', ne', se))
      | Some (false, ne') =>
        match insert se spp with
        | None => None
        | Some (b, se') => Some (b, (nw', sw', ne', se'))
        end
      end
    end
  end.

(** The loop [while (qt->capacity > 0)] of [QTreeSubdivide]: pops the head
    of the list and offers it to the four children; what no child accepts
    is not stored anywhere. *)
Fixpoint drain (cap : Z) (ps : list SpikePair) (k : children)
  : option (Z * list SpikePair * children) :=
  if (0 <? cap)%Z then
    match ps with
    | [] => None
    | spp :: rest =>
      match insert_into_children k spp with
      | None => None
      | Some (_, k') => drain (cap - 1) rest k'
      end
    end
  else Some (cap, ps, k).

Definition QTreeSubdivide (qt : QuadTree) : option QuadTree :=
  let bb := bdry qt in
  let d2 := w2 bb / 2 in
  let bbNW := BBoxCreate (c_x bb - d2) (c_y bb + d2) d2 in
  let bbSW := BBoxCreate (c_x bb - d2) (c_y bb - d2) d2 in
  let bbNE := BBoxCreate (c_x bb + d2) (c_y bb + d2) d2 in
  let bbSE := BBoxCreate (c_x bb + d2) (c_y bb - d2) d2 in
  match drain (capacity qt) (pairs qt)
              (QTreeCreate bbNW, QTreeCreate bbSW,
               QTreeCreate bbNE, QTreeCreate bbSE) with
  | None => None
  | Some (cap, ps, (nw, sw, ne, se)) => Some (Quad cap bb ps nw sw ne se)
  end.

End Insertion.

(** The list of a leaf once [spp] is linked in: with a [capacity] of 0 the
    list becomes [spp] alone; otherwise the list is walked to its last cell
    (a NULL list is dereferenced there) and [spp] is linked behind it. *)
Definition leaf_append (cap : Z) (ps : list SpikePair) (spp : SpikePair)
  : option (list SpikePair) :=
  if (cap =? 0)%Z then Some [spp]
  else match ps with
       | [] => None
       | _ => Some (ps ++ [spp])
       end.

Fixpoint QTreeInsert (fuel : nat) (qt : QuadTree) (spp : SpikePair)
  : option (bool * QuadTree) :=
  match fuel with
  | O => None
  | S fuel' =>
    if negb (BBoxContainsPoint (bdry qt) spp) then Some (false, qt)
    else
      let descend cap bb ps k :=
        match insert_into_children (QTreeInsert fuel') k spp with
        | None => None
        | Some (b, (nw, sw, ne, se)) => Some (b, Quad cap bb ps nw sw ne se)
        end in
      match qt with
      | Leaf cap bb ps =>
        if (cap <? QT_MAX_CAP)%Z then
          match leaf_append cap ps spp with
          | None => None
          | Some ps' => Some (true, Leaf (cap + 1) bb ps')
          end
        else
          match QTreeSubdivide (QTreeInsert fuel') qt with
          | Some (Quad cap' bb' ps' nw sw ne se) =>
            descend cap' bb' ps' (nw, sw, ne, se)
          | _ => None
          end
      | Quad cap bb ps nw sw ne se => descend cap bb ps (nw, sw, ne, se)
      end
  end.

(** [QTreeMapQueryRange]: the visitor [func] acts on a state [S] (in C, the
    globals it writes). *)
Fixpoint QTreeMapQueryRange {S : Type} (qt : QuadTree) (r : BoundingBox)
         (func : SpikePair -> S -> S) (s : S) : S :=
  if negb (BBoxIntersects (bdry qt) r) then s
  else
    match qt with
    | Leaf _ _ ps => fold_left (fun acc spp => func spp acc) ps s
    | Quad _ _ ps nw sw ne se =>
      let s := fold_left (fun acc spp => func spp acc) ps s in
      let s := QTreeMapQueryRange nw r func s in
      let s := QTreeMapQueryRange sw r func s in
      let s := QTreeMapQueryRange ne r func s in
      QTreeMapQueryRange se r func s
    end.

(** The visitor that records its arguments, in call order. *)
Definition collect (spp : SpikePair) (seen : list SpikePair) : list SpikePair :=
  seen ++ [spp].

Definition visited (qt : QuadTree) (r : BoundingBox) : list SpikePair :=
  QTreeMapQueryRange qt r collect [].

(** Every pair stored in the tree, in the order [QTreePrint] prints them. *)
Fixpoint stored (qt : QuadTree) : list SpikePair :=
  match qt with
  | Leaf _ _ ps => ps
  | Quad _ _ ps nw sw ne se =>
    ps ++ stored nw ++ stored sw ++ stored ne ++ stored se
  end.

(** The flags [BBoxContainsPoint] returns on the boxes of the four children,
    in the order NW, SW, NE, SE. *)
Definition children_containing (qt : QuadTree) (spp : SpikePair) : list bool :=
  match qt with
  | Leaf _ _ _ => []
  | Quad _ _ _ nw sw ne se =>
    map (fun child => BBoxContainsPoint (bdry child) spp) [nw; sw; ne; se]
  end.

(** Successive calls of [QTreeInsert] on one tree, each with budget [fuel];
    the flags returned are kept. *)
Fixpoint insert_all (fuel : nat) (qt : QuadTree) (l : list SpikePair)
  : option (list bool * QuadTree) :=
  match l with
  | [] => Some ([], qt)
  | spp :: rest =>
    match QTreeInsert fuel qt spp with
    | None => None
    | Some (b, qt') =>
      match insert_all fuel qt' rest with
      | None => None
      | Some (bs, qt'') => Some (b :: bs, qt'')
      end
    end
  end.

(** ** The invariant of the quadtrees that insertions build

    [U] lists the points inserted so far.  A leaf holds at most [QT_MAX_CAP]
    pairs, [capacity] counts them, their points are pairwise distinct points
    of [U] and [BBoxContainsPoint] accepted each in the leaf's box.  A
    subdivided node holds no pair, its half-width exceeds 1 and its children
    have half its half-width. *)
Definition leaf_ok (U : list (Z * Z)) (cap : Z) (bb : BoundingBox)
           (ps : list SpikePair) : Prop :=
  cap = Z.of_nat (length ps) /\
  (cap <= QT_MAX_CAP)%Z /\
  NoDup (map point ps) /\
  Forall (fun spp => BBoxContainsPoint bb spp = true /\ In (point spp) U) ps.

Fixpoint wf (U : list (Z * Z)) (qt : QuadTree) : Prop :=
  match qt with
  | Leaf cap bb ps => leaf_ok U cap bb ps
  | Quad cap bb ps nw sw ne se =>
    cap = 0%Z /\ ps = [] /\ 1 < w2 bb /\
    (w2 (bdry nw) = w2 bb / 2 /\ wf U nw) /\
    (w2 (bdry sw) = w2 bb / 2 /\ wf U sw) /\
    (w2 (bdry ne) = w2 bb / 2 /\ wf U ne) /\
    (w2 (bdry se) = w2 bb / 2 /\ wf U se)
  end.

Definition all4 (P : QuadTree -> Prop) (k : children) : Prop :=
  let '(nw, sw, ne, se) := k in P nw /\ P sw /\ P ne /\ P se.

(** A child of a node that is being subdivided, while the pairs [rest] are
    still to be drained: a leaf of half-width [h] with room for all of them,
    whose pairs are as in [leaf_ok] and share no point with [rest]. *)
Definition draining_leaf (U : list (Z * Z)) (h : float) (rest : list SpikePair)
           (qt : QuadTree) : Prop :=
  match qt with
  | Leaf cap bb ps =>
    w2 bb = h /\
    cap = Z.of_nat (length ps) /\
    (length ps + length rest <= 4)%nat /\
    NoDup (map point ps) /\
    Forall (fun spp => BBoxContainsPoint bb spp = true /\ In (point spp) U) ps /\
    (forall spp, In spp rest -> ~ In (point spp) (map point ps))
  | Quad _ _ _ _ _ _ _ => False
  end.

(** Every leaf holds at most [QT_MAX_CAP] pairs, counted by [capacity]; a
    subdivided node holds none. *)
Fixpoint within_capacity (qt : QuadTree) : Prop :=
  match qt with
  | Leaf cap _ ps => cap = Z.of_nat (length ps) /\ (cap <= QT_MAX_CAP)%Z
  | Quad cap _ ps nw sw ne se =>
    cap = 0%Z /\ ps = [] /\
    within_capacity nw /\ within_capacity sw /\
    within_capacity ne /\ within_capacity se
  end.

(** A recursion budget that suffices on a tree of root box [bbox]: two more
    than the number of halvings that bring the half-width down to 1. *)
Definition depth_bound (bbox : BoundingBox) : nat :=
  Z.to_nat (Z.log2_up (Qceiling (w2 bbox))) + 2.

(** ** network.h, network.c *)

Record Synapse := mkSynapse {
  src_id : Z;             (* presynaptic id *)
  tgt_id : Z;             (* postsynaptic id *)
  rel_w : float;          (* relative weight *)
  neg_log_rel_w : float;  (* negative log of the relative weight *)
  delay : float           (* axonal conduction delay *)
}.

(** [presyns] is the array of the lists of presynaptic partners; the array
    that [malloc] returns is taken to hold NULL pointers. *)
Record PhysNetwork := mkPhysNetwork {
  pn_n_cells : Z;
  presyns : list (list Synapse)
}.

(** [a[i] = f(a[i])] on an array held as a list. *)
Fixpoint array_update {A : Type} (a : list A) (i : nat) (f : A -> A) : list A :=
  match a, i with
  | [], _ => []
  | x :: a', O => f x :: a'
  | x :: a', S i' => x :: array_update a' i' f
  end.

Definition PhysNetworkInit (_n_cells : Z) : PhysNetwork :=
  mkPhysNetwork _n_cells (repeat [] (Z.to_nat _n_cells)).

(** [None]: the run ends in [exit(-1)]. *)
Definition PhysNetworkAddSynapse (pn : PhysNetwork) (edg : Synapse)
  : option PhysNetwork :=
  if (pn_n_cells pn <=? tgt_id edg)%Z then None
  else Some (mkPhysNetwork (pn_n_cells pn)
               (array_update (presyns pn) (Z.to_nat (tgt_id edg))
                             (fun l => edg :: l))).

Section Network.

(** [log] of math.h. *)
Variable log : float -> float.

Definition SynapseCreate (_src _tgt : Z) (_rel_w _delay : float) : Synapse :=
  mkSynapse (_src mod 2 ^ 64) (_tgt mod 2 ^ 64) _rel_w (-1 * log _rel_w) _delay.

(** [PhysNetworkReadFile] on the fields parsed from the lines of the file:
    [(src_id, tgt_id, rel_w, delay)].  The input is a file that opened and
    whose every line parsed: the exits of the C reader on a file that does
    not open and on a field that does not parse happen before this
    function's input exists, and [None] is the exit of
    [PhysNetworkAddSynapse] only. *)
Fixpoint PhysNetworkReadFile (pn : PhysNetwork) (lines : list (Z * Z * float * float))
  : option PhysNetwork :=
  match lines with
  | [] => Some pn
  | (s, t, w, d) :: rest =>
    match PhysNetworkAddSynapse pn (SynapseCreate s t w d) with
    | None => None
    | Some pn' => PhysNetworkReadFile pn' rest
    end
  end.

End Network.

(** ** raster.c *)

(** Modelled from the spec: [struct SpikeRaster] is declared in raster.h,
    which is not among the sources.  The fields are the ones raster.c and
    gnatfinder.c read and write, and the ones the specification lists: the
    spike list of each neuron, [t_min], [t_max], [n_spikes] and the
    population size.  The array that [malloc] returns is taken to hold NULL
    pointers. *)
Record SpikeRaster := mkSpikeRaster {
  n_cells : Z;
  sp_lists : list (list Spike);
  t_min : Z;
  t_max : Z;
  n_spikes : Z
}.

Definition RasterInit (_n_cells : Z) : SpikeRaster :=
  mkSpikeRaster _n_cells (repeat [] (Z.to_nat _n_cells)) 0 0 0.

Definition RasterHeadAppend (sr : SpikeRaster) (sp : Spike) : option SpikeRaster :=
  if (n_cells sr <=? n_id sp)%Z then None
  else
    let lists := array_update (sp_lists sr) (Z.to_nat (n_id sp)) (fun l => sp :: l) in
    let '(tmin, tmax) :=
      if (n_spikes sr =? 0)%Z then (ts sp, ts sp)
      else
        let min_diff := (ts sp - t_min sr)%Z in
        let max_diff := (ts sp - t_max sr)%Z in
        ((t_min sr + (if (0 <? min_diff)%Z then 0 else min_diff))%Z,
         (t_max sr + (if (max_diff <? 0)%Z then 0 else max_diff))%Z) in
    Some (mkSpikeRaster (n_cells sr) lists tmin tmax (n_spikes sr + 1)).

Definition SpikeListReverse (list_head : list Spike) : list Spike :=
  rev_append list_head [].

Definition RasterReverse (sr : SpikeRaster) : SpikeRaster :=
  mkSpikeRaster (n_cells sr) (map SpikeListReverse (sp_lists sr))
                (t_min sr) (t_max sr) (n_spikes sr).

(** [RasterReadFile] on the fields parsed from the lines of the file:
    [(type, timestamp, neuron_id)].  The input is a file that opened and
    whose every line parsed: the exits of the C reader on a file that does
    not open and on a field that does not parse happen before this
    function's input exists, and [None] is the exit of [RasterHeadAppend]
    only. *)
Fixpoint RasterAppendLines (sr : SpikeRaster) (lines : list (Z * Z * Z))
  : option SpikeRaster :=
  match lines with
  | [] => Some sr
  | (_sp_type, _ts, _n_id) :: rest =>
    match RasterHeadAppend sr (create_spike _n_id _ts) with
    | None => None
    | Some sr' => RasterAppendLines sr' rest
    end
  end.

Definition RasterReadFile (sr : SpikeRaster) (lines : list (Z * Z * Z))
  : option SpikeRaster :=
  match RasterAppendLines sr lines with
  | None => None
  | Some sr' => Some (RasterReverse sr')
  end.

(** ** gnats.h, gnats.c: the causal kernel and the edge buffer *)

Definition LARGE_GAMMA : float := 999999.
Definition N_EDGBUF : Z := 8192.

Record GNATEdge := mkGNATEdge {
  spp_pre : SpikePair;
  spp_post : SpikePair;
  cd_ratio : float
}.

(** The edge buffer ([g_edgbuf] up to [edgbuf_sz]) and the lines written to
    [fp_edgbuf] so far, each line as its six integers. *)
Record EdgeBuffer := mkEdgeBuffer {
  g_edgbuf : list GNATEdge;
  fp_edgbuf : list (list Z)
}.

Definition edgbuf_sz (eb : EdgeBuffer) : Z := Z.of_nat (length (g_edgbuf eb)).

Definition fprint_GNAT_edge (edg : GNATEdge) : list Z :=
  [n_id (sp1 (spp_pre edg)); ts (sp1 (spp_pre edg)); ts (sp2 (spp_pre edg));
   n_id (sp1 (spp_post edg)); ts (sp1 (spp_post edg)); ts (sp2 (spp_post edg))].

Definition initialize_edge_buffer : EdgeBuffer := mkEdgeBuffer [] [].

Definition flush_edge_buffer (eb : EdgeBuffer) : EdgeBuffer :=
  mkEdgeBuffer [] (fp_edgbuf eb ++ map fprint_GNAT_edge (g_edgbuf eb)).

(** The lines of the file once it is closed. *)
Definition finalize_edge_buffer (eb : EdgeBuffer) : list (list Z) :=
  fp_edgbuf (flush_edge_buffer eb).

Definition GNAT_add_edge (_spp_pre _spp_post : SpikePair) (_cd_ratio : float)
           (eb : EdgeBuffer) : EdgeBuffer :=
  let eb := if (N_EDGBUF <=? edgbuf_sz eb)%Z then flush_edge_buffer eb else eb in
  mkEdgeBuffer (g_edgbuf eb ++ [mkGNATEdge _spp_pre _spp_post _cd_ratio])
               (fp_edgbuf eb).

Definition compute_gamma (sp_pre sp_post : Spike) (edg : Synapse) (tau : float)
  : float :=
  let delta_t := float_of_long (ts sp_post - ts sp_pre) in
  (* heaviside function *)
  let theta : float := if fle (delay edg) delta_t then 0 else 1 in
  (theta * LARGE_GAMMA) + (neg_log_rel_w edg + (delta_t - delay edg) / tau).

Definition GNAT_test_for_edge (spp_pre spp_post : SpikePair) (edg : Synapse)
           (tau thresh : float) : bool :=
  let gamma_1 := compute_gamma (sp1 spp_pre) (sp1 spp_post) edg tau in
  let gamma_2 := compute_gamma (sp2 spp_pre) (sp2 spp_post) edg tau in
  fle gamma_1 thresh && fle gamma_2 thresh.

Fixpoint QTreeMapGNATEdge (qt : QuadTree) (r : BoundingBox) (spp_post : SpikePair)
         (syn : Synapse) (tau theta : float) (eb : EdgeBuffer) : EdgeBuffer :=
  if negb (BBoxIntersects (bdry qt) r) then eb
  else
    let test spp_pre eb :=
      if GNAT_test_for_edge spp_pre spp_post syn tau theta
      then GNAT_add_edge spp_pre spp_post 1 eb else eb in
    match qt with
    | Leaf _ _ ps => fold_left (fun acc spp_pre => test spp_pre acc) ps eb
    | Quad _ _ ps nw sw ne se =>
      let eb := fold_left (fun acc spp_pre => test spp_pre acc) ps eb in
      let eb := QTreeMapGNATEdge nw r spp_post syn tau theta eb in
      let eb := QTreeMapGNATEdge sw r spp_post syn tau theta eb in
      let eb := QTreeMapGNATEdge ne r spp_post syn tau theta eb in
      QTreeMapGNATEdge se r spp_post syn tau theta eb
    end.

(** ** gnatfinder.c: the orchestrator *)

(** The inner loop of [insert_spike_pairs]: [sp_b] runs over the spikes that
    follow [sp_a]. *)
Fixpoint insert_pairs_from (fuel : nat) (qt : QuadTree) (sp_a : Spike)
         (followers : list Spike) : option QuadTree :=
  match followers with
  | [] => Some qt
  | sp_b :: rest =>
    if negb (spike_equals sp_a sp_b) then
      match QTreeInsert fuel qt (create_spike_pair sp_a sp_b) with
      | None => None
      | Some (_, qt') => insert_pairs_from fuel qt' sp_a rest
      end
    else insert_pairs_from fuel qt sp_a rest
  end.

Fixpoint insert_spike_pairs (fuel : nat) (qt : QuadTree) (list_head : list Spike)
  : option QuadTree :=
  match list_head with
  | [] => Some qt
  | sp_a :: rest =>
    match insert_pairs_from fuel qt sp_a rest with
    | None => None
    | Some qt' => insert_spike_pairs fuel qt' rest
    end
  end.

Section Orchestrator.

(** The globals [g_raster], [g_network] and [g_qtarray], read-only in the
    second phase. *)
Variable g_raster : SpikeRaster.
Variable g_network : PhysNetwork.
Variable g_qtarray : list QuadTree.
Variables tau thresh c_radius : float.

(** The loop [while (presyn)]; [None] when [g_qtarray] is indexed out of
    its bounds. *)
Fixpoint query_presyns (spp_post : SpikePair) (presyn : list Synapse)
         (eb : EdgeBuffer) : option EdgeBuffer :=
  match presyn with
  | [] => Some eb
  | syn :: rest =>
    match nth_error g_qtarray (Z.to_nat (src_id syn)) with
    | None => None
    | Some presyn_qtree =>
      let query_bbox :=
        mkBBox (float_of_long (ts (sp1 spp_post)))
               (float_of_long (ts (sp2 spp_post))) c_radius in
      query_presyns spp_post rest
        (QTreeMapGNATEdge presyn_qtree query_bbox spp_post syn tau thresh eb)
    end
  end.

(** The loop [while (sp_b)]. *)
Fixpoint post_pairs_from (tgt : nat) (sp_a : Spike) (followers : list Spike)
         (eb : EdgeBuffer) : option EdgeBuffer :=
  match followers with
  | [] => Some eb
  | sp_b :: rest =>
    if negb (spike_equals sp_a sp_b) then
      match query_presyns (create_spike_pair sp_a sp_b)
                          (nth tgt (presyns g_network) []) eb with
      | None => None
      | Some eb' => post_pairs_from tgt sp_a rest eb'
      end
    else post_pairs_from tgt sp_a rest eb
  end.

(** The loop [while (sp_a)]. *)
Fixpoint post_pairs (tgt : nat) (spikes : list Spike) (eb : EdgeBuffer)
  : option EdgeBuffer :=
  match spikes with
  | [] => Some eb
  | sp_a :: rest =>
    match post_pairs_from tgt sp_a rest eb with
    | None => None
    | Some eb' => post_pairs tgt rest eb'
    end
  end.

(** The loop over [post_idx]. *)
Fixpoint post_cells (idxs : list nat) (eb : EdgeBuffer) : option EdgeBuffer :=
  match idxs with
  | [] => Some eb
  | post_idx :: rest =>
    match post_pairs post_idx (nth post_idx (sp_lists g_raster) []) eb with
    | None => None
    | Some eb' => post_cells rest eb'
    end
  end.

Definition compute_gnat_edges (eb : EdgeBuffer) : option EdgeBuffer :=
  post_cells (seq 0 (Z.to_nat (pn_n_cells g_network))) eb.

End Orchestrator.

(** The quadtrees of the cells [idxs], each built on [bbox_top_level]. *)
Fixpoint build_quadtrees (fuel : nat) (bbox_top_level : BoundingBox)
         (lists : list (list Spike)) (idxs : list nat) : option (list QuadTree) :=
  match idxs with
  | [] => Some []
  | idx :: rest =>
    match insert_spike_pairs fuel (QTreeCreate bbox_top_level) (nth idx lists []) with
    | None => None
    | Some qt =>
      match build_quadtrees fuel bbox_top_level lists rest with
      | None => None
      | Some qts => Some (qt :: qts)
      end
    end
  end.

(** [main], from the parsed arguments and the parsed lines of the two input
    files to the lines of [gnat2_out.txt]; [fuel] bounds the recursion depth
    of each [QTreeInsert].  As for the two readers, the input is a pair of
    files that opened and parsed. *)
Definition gnatfinder (log : float -> float) (fuel : nat) (n_cells_arg : Z)
           (spike_lines : list (Z * Z * Z))
           (network_lines : list (Z * Z * float * float))
           (tau thresh c_radius : float) : option (list (list Z)) :=
  let _n_cells := (n_cells_arg mod 2 ^ 64)%Z in
  match RasterReadFile (RasterInit (_n_cells mod 2 ^ 32)) spike_lines with
  | None => None
  | Some g_raster =>
    match PhysNetworkReadFile log (PhysNetworkInit _n_cells) network_lines with
    | None => None
    | Some g_network =>
      (* build top-level bounding box *)
      let _cx := float_of_long (t_max g_raster + t_min g_raster) / 2 in
      let _cy := _cx in
      let _hw := float_of_long (t_max g_raster - t_min g_raster) / 2 in
      let bbox_top_level := BBoxCreate _cx _cy _hw in
      match build_quadtrees fuel bbox_top_level (sp_lists g_raster)
                            (seq 0 (Z.to_nat _n_cells)) with
      | None => None
      | Some g_qtarray =>
        match compute_gnat_edges g_raster g_network g_qtarray tau thresh c_radius
                                 initialize_edge_buffer with
        | None => None
        | Some eb => Some (finalize_edge_buffer eb)
        end
      end
    end
  end.

(** ** Scenarios *)

Definition pt (x y : Z) : SpikePair := mkSpikePair (mkSpike 0 x) (mkSpike 0 y).

(** Scenario D: neuron 0 spikes at 10, 20, 30 and neuron 1 at 11, 21, 31;
    the file is sorted by time. *)
Definition scenario_D_spikes : list (Z * Z * Z) :=
  [(0, 10, 0); (0, 11, 1); (0, 20, 0); (0, 21, 1); (0, 30, 0); (0, 31, 1)]%Z.

Definition scenario_D_network : list (Z * Z * float * float) :=
  [(0%Z, 1%Z, 1, 1)].

Definition scenario_D (log : float -> float) (fuel : nat) : option (list (list Z)) :=
  gnatfinder log fuel 2 scenario_D_spikes scenario_D_network 1 1 100.

(** ** Notions used by the further properties *)

Definition Spike_eq_dec (a b : Spike) : {a = b} + {a <> b}.
Proof. decide equality; apply Z.eq_dec. Defined.

Definition SpikePair_eq_dec (a b : SpikePair) : {a = b} + {a <> b}.
Proof. decide equality; apply Spike_eq_dec. Defined.

(** How many times the pair [x] occurs in a list of pairs. *)
Definition occurrences (x : SpikePair) (l : list SpikePair) : nat :=
  count_occ SpikePair_eq_dec l x.

(** The boxes of the children of a subdivided node are the four quadrants
    [QTreeSubdivide] builds from the node's box, at every depth. *)
Fixpoint tiled (qt : QuadTree) : Prop :=
  match qt with
  | Leaf _ _ _ => True
  | Quad _ bb _ nw sw ne se =>
    let d2 := w2 bb / 2 in
    bdry nw = BBoxCreate (c_x bb - d2) (c_y bb + d2) d2 /\
    bdry sw = BBoxCreate (c_x bb - d2) (c_y bb - d2) d2 /\
    bdry ne = BBoxCreate (c_x bb + d2) (c_y bb + d2) d2 /\
    bdry se = BBoxCreate (c_x bb + d2) (c_y bb - d2) d2 /\
    tiled nw /\ tiled sw /\ tiled ne /\ tiled se
  end.

(** The pairs of [l] whose insertion returned TRUE, given the flags that
    [insert_all] returns. *)
Fixpoint accepted (flags : list bool) (l : list SpikePair) : list SpikePair :=
  match flags, l with
  | true :: flags', spp :: l' => spp :: accepted flags' l'
  | false :: flags', _ :: l' => accepted flags' l'
  | _, _ => []
  end.

(** The pairs stored under four children. *)
Definition stored4 (k : children) : list SpikePair :=
  let '(nw, sw, ne, se) := k in
  stored nw ++ stored sw ++ stored ne ++ stored se.

(** What one call of [QTreeInsert] that returns [b] may do to a tree: the
    box of the root is kept, so is the tiling, no pair is stored more often
    than before except the inserted one when [b] is TRUE, and TRUE is
    returned only for a pair the root box contains. *)
Definition insert_effect (spp : SpikePair) (b : bool) (qt qt' : QuadTree) : Prop :=
  bdry qt' = bdry qt /\
  (tiled qt -> tiled qt') /\
  (forall x, (occurrences x (stored qt')
              <= occurrences x (stored qt)
                 + (if b then occurrences x [spp] else 0))%nat) /\
  (b = true -> BBoxContainsPoint (bdry qt) spp = true).

(** The boxes of the four children that [QTreeSubdivide] creates, in the
    order NW, SW, NE, SE. *)
Definition quadrants (bb : BoundingBox) : list BoundingBox :=
  let d2 := w2 bb / 2 in
  [BBoxCreate (c_x bb - d2) (c_y bb + d2) d2;
   BBoxCreate (c_x bb - d2) (c_y bb - d2) d2;
   BBoxCreate (c_x bb + d2) (c_y bb + d2) d2;
   BBoxCreate (c_x bb + d2) (c_y bb - d2) d2].

(** Some box of the list contains the pair. *)
Definition covered_by (boxes : list BoundingBox) (spp : SpikePair) : bool :=
  existsb (fun q => BBoxContainsPoint q spp) boxes.

(** A leaf of box [bb] with room for [n] more pairs. *)
Definition roomy (bb : BoundingBox) (n : nat) (qt : QuadTree) : Prop :=
  match qt with
  | Leaf cap b ps =>
    b = bb /\ cap = Z.of_nat (length ps) /\ (length ps + n <= 4)%nat
  | Quad _ _ _ _ _ _ _ => False
  end.

(** [GNAT_add_edge] on a recorded edge. *)
Definition add_edge (eb : EdgeBuffer) (e : GNATEdge) : EdgeBuffer :=
  GNAT_add_edge (spp_pre e) (spp_post e) (cd_ratio e) eb.

(** The visitor that [QTreeMapGNATEdge] inlines: test the pre pair against
    [spp_post] and add the edge when the test passes. *)
Definition edge_visitor (spp_post : SpikePair) (syn : Synapse) (tau theta : float)
           (spp_pre : SpikePair) (eb : EdgeBuffer) : EdgeBuffer :=
  if GNAT_test_for_edge spp_pre spp_post syn tau theta
  then GNAT_add_edge spp_pre spp_post 1 eb else eb.

(** The edges one traversal adds: the visited pre pairs that pass the test,
    in visit order. *)
Definition edges_of_query (qt : QuadTree) (r : BoundingBox) (spp_post : SpikePair)
           (syn : Synapse) (tau theta : float) : list GNATEdge :=
  map (fun spp_pre => mkGNATEdge spp_pre spp_post 1)
      (filter (fun spp_pre => GNAT_test_for_edge spp_pre spp_post syn tau theta)
              (visited qt r)).

(** The spikes [RasterReadFile] creates, one per line, in file order. *)
Definition spikes_of_lines (lines : list (Z * Z * Z)) : list Spike :=
  map (fun '(_sp_type, _ts, _n_id) => create_spike _n_id _ts) lines.

(** The spikes of neuron [i] among [spikes], in the order of the list. *)
Definition spikes_of_neuron (i : nat) (spikes : list Spike) : list Spike :=
  filter (fun sp => (n_id sp =? Z.of_nat i)%Z) spikes.

(** The synapses [PhysNetworkReadFile] creates, one per line, in file
    order. *)
Definition synapses_of_lines (log : float -> float)
           (lines : list (Z * Z * float * float)) : list Synapse :=
  map (fun '(s, t, w, d) => SynapseCreate log s t w d) lines.

(** The synapses onto neuron [v] among [syns], in the order of the list. *)
Definition synapses_onto (v : nat) (syns : list Synapse) : list Synapse :=
  filter (fun syn => (tgt_id syn =? Z.of_nat v)%Z) syns.

(** What [t_min], [t_max] and [n_spikes] hold once the timestamps [seen]
    have been appended. *)
Definition tracks_extremes (sr : SpikeRaster) (seen : list Z) : Prop :=
  n_spikes sr = Z.of_nat (length seen) /\
  (seen <> [] ->
   In (t_min sr) seen /\ In (t_max sr) seen /\
   Forall (fun t => (t_min sr <= t <= t_max sr)%Z) seen).


(** ** The pairs and the edges the orchestrator enumerates *)

(** The pairs [(sp_a, sp_b)] of the doubly nested walk over a spike list:
    [sp_b] comes after [sp_a] in the list and [spike_equals] tells them
    apart. *)
Definition pairs_from (sp_a : Spike) (followers : list Spike) : list SpikePair :=
  map (create_spike_pair sp_a)
      (filter (fun sp_b => negb (spike_equals sp_a sp_b)) followers).

Fixpoint pairs_of (spikes : list Spike) : list SpikePair :=
  match spikes with
  | [] => []
  | sp_a :: rest => pairs_from sp_a rest ++ pairs_of rest
  end.

Section Expected.

Variable g_raster : SpikeRaster.
Variable g_network : PhysNetwork.
Variable g_qtarray : list QuadTree.
Variables tau thresh c_radius : float.

(** The query region of a post pair. *)
Definition query_box (spp_post : SpikePair) : BoundingBox :=
  mkBBox (float_of_long (ts (sp1 spp_post)))
         (float_of_long (ts (sp2 spp_post))) c_radius.

Definition edges_for_synapse (spp_post : SpikePair) (syn : Synapse)
  : list GNATEdge :=
  edges_of_query (nth (Z.to_nat (src_id syn)) g_qtarray (QTreeCreate (mkBBox 0 0 0)))
                 (query_box spp_post) spp_post syn tau thresh.

Definition edges_for_post (v : nat) (spp_post : SpikePair) : list GNATEdge :=
  flat_map (edges_for_synapse spp_post) (nth v (presyns g_network) []).

Definition edges_for_cell (v : nat) : list GNATEdge :=
  flat_map (edges_for_post v) (pairs_of (nth v (sp_lists g_raster) [])).

(** Every edge of the run, in emission order: by post cell, by post pair,
    by presynaptic partner, by visited pre pair. *)
Definition expected_edges : list GNATEdge :=
  flat_map edges_for_cell (seq 0 (Z.to_nat (pn_n_cells g_network))).

(** Every presynaptic partner on file has a quadtree. *)
Definition sources_in_range : Prop :=
  forall v syn, In syn (nth v (presyns g_network) []) ->
                (Z.to_nat (src_id syn) < length g_qtarray)%nat.

End Expected.

(** The raster of Scenario D once the spike file is read. *)
Definition scenario_D_raster : SpikeRaster :=
  mkSpikeRaster 2
    [[mkSpike 0 10; mkSpike 0 20; mkSpike 0 30];
     [mkSpike 1 11; mkSpike 1 21; mkSpike 1 31]]
    10 31 6.

(** The network of Scenario D once the network file is read, for a [log]
    that is 0 at 1. *)
Definition scenario_D_net : PhysNetwork :=
  mkPhysNetwork 2 [[]; [mkSynapse 0 1 1 0 1]].

(** The quadtrees of Scenario D, built as [main] builds them. *)
Definition scenario_D_qtarray : list QuadTree :=
  match build_quadtrees 1 (BBoxCreate (41 # 2) (41 # 2) (21 # 2))
                        (sp_lists scenario_D_raster) (seq 0 2) with
  | Some qts => qts
  | None => []
  end.

(** A run with an anti-causal pair: the spikes of neuron 0 come two million
    ticks after those of its target, neuron 1; the single spike of neuron 2
    widens the top-level box. *)
Definition anti_causal_spikes : list (Z * Z * Z) :=
  [(0, 0, 1); (0, 10, 1); (0, 2000000, 0); (0, 2000010, 0); (0, 4000000, 2)]%Z.

Definition anti_causal_network : list (Z * Z * float * float) :=
  [(0%Z, 1%Z, 1, 1)].

(** What a line of the output file says, read against the two input files:
    it names a synapse on file, two different spikes of its source and two
    different spikes of its target, all on file, and both positional gammas
    are within the threshold. *)
Definition sound_line (log : float -> float) (spike_lines : list (Z * Z * Z))
           (network_lines : list (Z * Z * float * float)) (tau thresh : float)
           (line : list Z) : Prop :=
  exists syn a1 a2 b1 b2,
    line = [src_id syn; ts a1; ts a2; tgt_id syn; ts b1; ts b2] /\
    In syn (synapses_of_lines log network_lines) /\
    (In a1 (spikes_of_lines spike_lines) /\ In a2 (spikes_of_lines spike_lines) /\
     In b1 (spikes_of_lines spike_lines) /\ In b2 (spikes_of_lines spike_lines)) /\
    (n_id a1 = src_id syn /\ n_id a2 = src_id syn /\
     n_id b1 = tgt_id syn /\ n_id b2 = tgt_id syn) /\
    (ts a1 <> ts a2 /\ ts b1 <> ts b2) /\
    (compute_gamma a1 b1 syn tau <= thresh /\ compute_gamma a2 b2 syn tau <= thresh).

(** * Properties *)

(** ** C comparisons and truncation *)

Lemma flt_iff (x y : float) : flt x y = true <-> x < y.
Proof.
  unfold flt. rewrite negb_true_iff.
  destruct (Qle_bool y x) eqn:E.
  - apply Qle_bool_iff in E. split; [discriminate | intro; lra].
  - split; [intros _ | reflexivity].
    destruct (Qlt_le_dec x y) as [L | L]; [exact L |].
    apply Qle_bool_iff in L. congruence.
Qed.

Lemma fle_iff (x y : float) : fle x y = true <-> x <= y.
Proof. apply Qle_bool_iff. Qed.

Lemma BBoxContainsPoint_iff (bb : BoundingBox) (spp : SpikePair) :
  BBoxContainsPoint bb spp = true <->
  truncated_distance (float_of_long (ts (sp1 spp)) - c_x bb) < w2 bb /\
  truncated_distance (float_of_long (ts (sp2 spp)) - c_y bb) < w2 bb.
Proof.
  unfold BBoxContainsPoint, truncated_distance; cbv zeta.
  rewrite andb_true_iff, !flt_iff. reflexivity.
Qed.

Lemma BBoxIntersects_iff (bb1 bb2 : BoundingBox) :
  BBoxIntersects bb1 bb2 = true <->
  truncated_distance (c_x bb2 - c_x bb1) <= w2 bb1 + w2 bb2 /\
  truncated_distance (c_y bb2 - c_y bb1) <= w2 bb1 + w2 bb2.
Proof.
  unfold BBoxIntersects, truncated_distance; cbv zeta.
  rewrite andb_true_iff, !fle_iff. reflexivity.
Qed.

(** ** The causal kernel *)

(** C1: below the delay [compute_gamma] does not return the sentinel, it
    ADDS it to the regular expression, and the sum can be as small as any
    threshold.  With the pre spike 2000000 ticks after the post spike (delay
    1, tau 1, weight 1) the value is -1000002, not [LARGE_GAMMA]; the pair
    passes the threshold 1, and the run writes an edge whose presynaptic
    spikes come after the postsynaptic ones. *)
Theorem compute_gamma_accepts_anti_causal_pair (log : float -> float) (fuel : nat) :
  log 1 = 0 ->
  (1 <= fuel)%nat ->
  let edg := SynapseCreate log 0 1 1 1 in
  let sp_pre := mkSpike 0 2000000 in
  let sp_post := mkSpike 1 0 in
  (float_of_long (ts sp_post - ts sp_pre) < delay edg /\
   compute_gamma sp_pre sp_post edg 1 == - (1000002) /\
   ~ compute_gamma sp_pre sp_post edg 1 == LARGE_GAMMA) /\
  gnatfinder log fuel 3 anti_causal_spikes anti_causal_network 1 1 3000000
  = Some [[0; 2000000; 2000010; 1; 0; 10]]%Z.
Proof.
  intros Hlog Hfuel. destruct fuel as [| fuel]; [lia |]. cbv zeta.
  split.
  - unfold SynapseCreate. rewrite Hlog.
    split; [reflexivity |]. split; [vm_compute; reflexivity |].
    intro H. vm_compute in H. discriminate H.
  - unfold gnatfinder, anti_causal_network.
    cbn [PhysNetworkReadFile]. unfold SynapseCreate. rewrite Hlog.
    vm_compute. reflexivity.
Qed.

Lemma compute_gamma_accepts_anti_causal_pair_witness :
  let edg := SynapseCreate (fun _ => 0) 0 1 1 1 in
  let sp_pre := mkSpike 0 2000000 in
  let sp_post := mkSpike 1 0 in
  (float_of_long (ts sp_post - ts sp_pre) < delay edg /\
   compute_gamma sp_pre sp_post edg 1 == - (1000002) /\
   ~ compute_gamma sp_pre sp_post edg 1 == LARGE_GAMMA) /\
  gnatfinder (fun _ => 0) 1 3 anti_causal_spikes anti_causal_network 1 1 3000000
  = Some [[0; 2000000; 2000010; 1; 0; 10]]%Z.
Proof.
  apply (compute_gamma_accepts_anti_causal_pair (fun _ => 0) 1).
  - reflexivity.
  - apply le_n.
Defined.

(** C2: the edge predicate accepts exactly when both positional gammas
    ([a1] with [b1], [a2] with [b2]) are at most the threshold. *)
Theorem GNAT_test_for_edge_iff (spp_pre spp_post : SpikePair) (edg : Synapse)
        (tau thresh : float) :
  GNAT_test_for_edge spp_pre spp_post edg tau thresh = true <->
  compute_gamma (sp1 spp_pre) (sp1 spp_post) edg tau <= thresh /\
  compute_gamma (sp2 spp_pre) (sp2 spp_post) edg tau <= thresh.
Proof.
  unfold GNAT_test_for_edge; cbv zeta.
  rewrite andb_true_iff, !fle_iff. reflexivity.
Qed.

(** ** The two box tests *)

(** [(int)] discards the fractional part: the truncated distance is the
    integer part of the real distance. *)
Lemma truncated_distance_bounds (x : float) :
  truncated_distance x <= Qabs x /\ Qabs x < truncated_distance x + 1.
Proof.
  destruct x as [n d].
  unfold truncated_distance, float_of_long, abs, int_of_float, Qle, Qlt.
  cbn [Qabs Qnum Qden inject_Z Qplus].
  rewrite <- (Z.quot_abs n (Zpos d)) by discriminate.
  change (Z.abs (Zpos d)) with (Zpos d).
  rewrite Z.quot_div_nonneg by lia.
  pose proof (Z.div_mod (Z.abs n) (Zpos d) ltac:(discriminate)) as E.
  pose proof (Z.mod_pos_bound (Z.abs n) (Zpos d) ltac:(lia)) as B.
  split; nia.
Qed.

Lemma truncated_distance_nonneg (x : float) : 0 <= truncated_distance x.
Proof.
  unfold truncated_distance, float_of_long, abs.
  change 0 with (inject_Z 0). rewrite <- Zle_Qle. apply Z.abs_nonneg.
Qed.


(** C6 at the top-level box of Scenario D (centre 20.5, half-width 10.5) and
    the pair (10, 20): the real distance on the first axis is the half-width
    itself, so the pair is not strictly inside, and [BBoxContainsPoint]
    accepts it; and two boxes whose centres are 1.5 apart with half-widths
    0.25 and 0.75 do not touch, and [BBoxIntersects] accepts them. *)
Theorem BBox_tests_differ_from_real_distance :
  (let bb := mkBBox 20.5 20.5 10.5 in
   BBoxContainsPoint bb (pt 10 20) = true /\ ~ strictly_inside bb (pt 10 20)) /\
  (let bb1 := mkBBox 0 0 0.25 in
   let bb2 := mkBBox 1.5 0 0.75 in
   BBoxIntersects bb1 bb2 = true /\ ~ boxes_touch bb1 bb2).
Proof.
  cbv zeta. split; split; try reflexivity.
  - intros [Sx _]. vm_compute in Sx. discriminate Sx.
  - intros [Sx _]. vm_compute in Sx. apply Sx. reflexivity.
Qed.

(** ** The quadtree on concrete inputs *)

(** C4 on the box of centre (0, 0) and half-width 8.  Four insertions fill
    the root leaf; [QTreeSubdivide] then offers each stored pair to the
    children of centres (-4, 4), (-4, -4), (4, 4), (4, -4) and half-width 4.
    The pair (0, 0), on both splitting lines, is strictly inside the leaf's
    box and inside no child's: the four insertions fail and the loop goes on
    to the next pair.  Three of the four pairs are stored afterwards.  The
    same happens to (0, 5), which lies on the line [x = c_x] only. *)
Theorem QTreeSubdivide_loses_pair_on_splitting_line :
  let root := mkBBox 0 0 8 in
  let leaf := Leaf 4 root [pt 0 0; pt 1 1; pt 2 2; pt 3 3] in
  let leaf' := Leaf 4 root [pt 0 5; pt 1 1; pt 2 2; pt 3 3] in
  (forall fuel,
      insert_all (S fuel) (QTreeCreate root) [pt 0 0; pt 1 1; pt 2 2; pt 3 3]
      = Some ([true; true; true; true], leaf)) /\
  strictly_inside root (pt 0 0) /\
  (forall fuel,
      exists qt, QTreeSubdivide (QTreeInsert (S fuel)) leaf = Some qt /\
                 stored qt = [pt 1 1; pt 2 2; pt 3 3]) /\
  (forall fuel,
      exists qt, QTreeSubdivide (QTreeInsert (S fuel)) leaf' = Some qt /\
                 stored qt = [pt 1 1; pt 2 2; pt 3 3]).
Proof.
  cbv zeta. split; [| split; [| split]].
  - intro fuel. vm_compute. reflexivity.
  - split; reflexivity.
  - intro fuel. eexists. split; vm_compute; reflexivity.
  - intro fuel. eexists. split; vm_compute; reflexivity.
Qed.

(** C3 on the same box: five pairwise distinct pairs, all strictly inside,
    every insertion returns TRUE, and the query on the root box visits four
    of them: (0, 0) was lost when the fifth insertion subdivided the root. *)
Theorem quadtree_round_trip_loses_pair :
  let root := mkBBox 0 0 8 in
  let input := [pt 0 0; pt 1 1; pt 2 2; pt 3 3; pt 4 4] in
  NoDup (map point input) /\
  Forall (strictly_inside root) input /\
  exists qt,
    (forall fuel,
        insert_all (S (S fuel)) (QTreeCreate root) input
        = Some ([true; true; true; true; true], qt)) /\
    visited qt root = [pt 1 1; pt 2 2; pt 3 3; pt 4 4] /\
    ~ Permutation (visited qt root) input.
Proof.
  cbv zeta. split; [| split].
  - vm_compute. repeat (apply NoDup_cons; [simpl; intuition congruence |]). apply NoDup_nil.
  - repeat constructor.
  - eexists. split; [| split].
    + intro fuel. vm_compute. reflexivity.
    + vm_compute. reflexivity.
    + intro P. apply Permutation_length in P. vm_compute in P. discriminate P.
Qed.

(** C7 on two subdivided roots.  On the box of half-width 8 the pair (0, 0)
    is strictly inside, no child contains it, and [QTreeInsert] returns
    FALSE through its last statement.  On the box of half-width 5.5 (the
    children have half-width 2.75) the four children contain it. *)
Theorem QTreeInsert_reaches_final_return :
  let root := mkBBox 0 0 8 in
  let root' := mkBBox 0 0 5.5 in
  (exists nw sw ne se,
      let qt := Quad 0 root [] nw sw ne se in
      (forall fuel,
          insert_all (S (S (S fuel))) (QTreeCreate root)
                     [pt 1 1; pt 2 2; pt 3 3; pt 5 5; pt 6 6]
          = Some ([true; true; true; true; true], qt)) /\
      strictly_inside root (pt 0 0) /\
      BBoxContainsPoint root (pt 0 0) = true /\
      children_containing qt (pt 0 0) = [false; false; false; false] /\
      (forall fuel, QTreeInsert (S (S fuel)) qt (pt 0 0) = Some (false, qt))) /\
  (exists nw sw ne se,
      let qt := Quad 0 root' [] nw sw ne se in
      (forall fuel,
          insert_all (S (S (S fuel))) (QTreeCreate root')
                     [pt 1 1; pt 2 2; pt 3 3; pt 4 4; pt 5 5]
          = Some ([true; true; true; true; true], qt)) /\
      strictly_inside root' (pt 0 0) /\
      children_containing qt (pt 0 0) = [true; true; true; true]).
Proof.
  cbv zeta. split.
  - do 4 eexists. split; [| split; [| split; [| split]]].
    + intro fuel. vm_compute. reflexivity.
    + split; reflexivity.
    + reflexivity.
    + vm_compute. reflexivity.
    + intro fuel. vm_compute. reflexivity.
  - do 4 eexists. split; [| split].
    + intro fuel. vm_compute. reflexivity.
    + split; reflexivity.
    + vm_compute. reflexivity.
Qed.

(** C5 on the box of centre (0.875, 0.875) and half-width 0.5.  The pair
    (0, 0) is inserted with success (both truncated distances are 0) and is
    strictly inside the query region of centre (-0.25, -0.25) and half-width
    0.375; the truncated distance between the two centres is 1, above the
    sum 0.875 of the half-widths, and the query visits nothing. *)
Theorem QTreeMapQueryRange_misses_stored_pair :
  let root := mkBBox 0.875 0.875 0.5 in
  let r := mkBBox (-0.25) (-0.25) 0.375 in
  exists qt,
    (forall fuel, QTreeInsert (S fuel) (QTreeCreate root) (pt 0 0) = Some (true, qt)) /\
    stored qt = [pt 0 0] /\
    strictly_inside r (pt 0 0) /\
    BBoxContainsPoint r (pt 0 0) = true /\
    visited qt r = [].
Proof.
  cbv zeta. eexists. split; [| split; [| split; [| split]]].
  - intro fuel. vm_compute. reflexivity.
  - reflexivity.
  - split; reflexivity.
  - reflexivity.
  - reflexivity.
Qed.

(** ** Scenario D *)

(** C8, as the code has it: the run writes exactly three lines, one for each
    post pair (11, 21), (11, 31), (21, 31) matched with the pre pair of the
    same rank.  Each neuron has three pairs (the spikes taken in file order,
    the first before the second), not six. *)
Theorem scenario_D_emits_three_edges (log : float -> float) (fuel : nat) :
  log 1 = 0 ->
  (1 <= fuel)%nat ->
  scenario_D log fuel
  = Some [[0; 10; 20; 1; 11; 21]; [0; 10; 30; 1; 11; 31]; [0; 20; 30; 1; 21; 31]]%Z.
Proof.
  intros Hlog Hfuel. destruct fuel as [| fuel]; [lia |].
  unfold scenario_D, gnatfinder, scenario_D_network.
  cbn [PhysNetworkReadFile]. unfold SynapseCreate. rewrite Hlog.
  vm_compute. reflexivity.
Qed.

Lemma scenario_D_emits_three_edges_witness :
  scenario_D (fun _ => 0) 1
  = Some [[0; 10; 20; 1; 11; 21]; [0; 10; 30; 1; 11; 31]; [0; 20; 30; 1; 21; 31]]%Z.
Proof.
  apply (scenario_D_emits_three_edges (fun _ => 0) 1).
  - reflexivity.
  - apply le_n.
Defined.

(** C8 as stated fails: the run does not write six lines. *)
Lemma scenario_D_does_not_emit_six_edges :
  ~ (exists out, scenario_D (fun _ => 0) 1 = Some out /\ length out = 6%nat).
Proof.
  intros (out & E & L). vm_compute in E. injection E as <-. discriminate L.
Qed.

(** ** Termination of [QTreeInsert] *)

(** *** A box of half-width at most 1 contains at most four points *)

Lemma contained_coordinate (t : Z) (c w : float) :
  truncated_distance (float_of_long t - c) < w -> w <= 1 ->
  t = Qfloor c \/ t = (Qfloor c + 1)%Z.
Proof.
  intros T W.
  destruct (truncated_distance_bounds (float_of_long t - c)) as [_ B].
  assert (truncated_distance (float_of_long t - c) == 0) as Z0.
  { unfold truncated_distance, float_of_long, abs in *.
    set (k := Z.abs _) in *.
    assert (inject_Z k < 1) as K by lra.
    change 1 with (inject_Z 1) in K. rewrite <- Zlt_Qlt in K.
    assert (k = 0%Z) as -> by (subst k; lia). reflexivity. }
  rewrite Z0 in B.
  apply Qabs_Qlt_condition in B. destruct B as [B1 B2].
  pose proof (Qfloor_le c) as F1. pose proof (Qlt_floor c) as F2.
  unfold float_of_long in *. rewrite inject_Z_plus in F2.
  change (inject_Z 1) with 1 in F2.
  assert (inject_Z (Qfloor c) < inject_Z (t + 1)) as L.
  { rewrite inject_Z_plus. change (inject_Z 1) with 1. lra. }
  assert (inject_Z t < inject_Z (Qfloor c + 2)) as R.
  { rewrite inject_Z_plus. change (inject_Z 2) with 2. lra. }
  rewrite <- Zlt_Qlt in L, R. lia.
Qed.

Lemma small_box_holds_at_most_four (bb : BoundingBox) (l : list SpikePair) :
  w2 bb <= 1 ->
  NoDup (map point l) ->
  Forall (fun spp => BBoxContainsPoint bb spp = true) l ->
  (length l <= 4)%nat.
Proof.
  intros W N C.
  set (f := Qfloor (c_x bb)). set (g := Qfloor (c_y bb)).
  rewrite <- (length_map point).
  change 4%nat with (length [(f, g); (f, g + 1); (f + 1, g); (f + 1, g + 1)]%Z).
  apply NoDup_incl_length; [exact N |].
  intros p Hp. apply in_map_iff in Hp. destruct Hp as (spp & <- & Hs).
  rewrite Forall_forall in C. specialize (C spp Hs).
  apply BBoxContainsPoint_iff in C. destruct C as [Cx Cy].
  apply contained_coordinate in Cx; [| exact W].
  apply contained_coordinate in Cy; [| exact W].
  unfold point. fold f in Cx. fold g in Cy.
  destruct Cx as [-> | ->], Cy as [-> | ->]; simpl; auto.
Qed.

(** *** One step of [QTreeInsert] *)

Lemma QTreeInsert_S (fuel : nat) (qt : QuadTree) (spp : SpikePair) :
  QTreeInsert (S fuel) qt spp =
  if negb (BBoxContainsPoint (bdry qt) spp) then Some (false, qt)
  else
    let descend cap bb ps k :=
      match insert_into_children (QTreeInsert fuel) k spp with
      | None => None
      | Some (b, (nw, sw, ne, se)) => Some (b, Quad cap bb ps nw sw ne se)
      end in
    match qt with
    | Leaf cap bb ps =>
      if (cap <? QT_MAX_CAP)%Z then
        match leaf_append cap ps spp with
        | None => None
        | Some ps' => Some (true, Leaf (cap + 1) bb ps')
        end
      else
        match QTreeSubdivide (QTreeInsert fuel) qt with
        | Some (Quad cap' bb' ps' nw sw ne se) =>
          descend cap' bb' ps' (nw, sw, ne, se)
        | _ => None
        end
    | Quad cap bb ps nw sw ne se => descend cap bb ps (nw, sw, ne, se)
    end.
Proof. reflexivity. Qed.

Lemma leaf_append_ok (cap : Z) (ps : list SpikePair) (spp : SpikePair) :
  cap = Z.of_nat (length ps) -> leaf_append cap ps spp = Some (ps ++ [spp]).
Proof.
  intros ->. unfold leaf_append. destruct ps as [| a l]; [reflexivity |].
  destruct (Z.eqb_spec (Z.of_nat (length (a :: l))) 0) as [E | _];
    [simpl length in E; lia | reflexivity].
Qed.

Lemma NoDup_snoc {A : Type} (l : list A) (x : A) :
  NoDup l -> ~ In x l -> NoDup (l ++ [x]).
Proof.
  intros N I. apply (Permutation_NoDup (l := x :: l)).
  - apply Permutation_cons_append.
  - constructor; assumption.
Qed.

(** A leaf with room left links the pair when its box contains it. *)
Lemma QTreeInsert_leaf (fuel : nat) (cap : Z) (bb : BoundingBox)
      (ps : list SpikePair) (spp : SpikePair) :
  cap = Z.of_nat (length ps) -> (cap < QT_MAX_CAP)%Z ->
  QTreeInsert (S fuel) (Leaf cap bb ps) spp =
  if BBoxContainsPoint bb spp
  then Some (true, Leaf (cap + 1) bb (ps ++ [spp]))
  else Some (false, Leaf cap bb ps).
Proof.
  intros Hc Hlt. rewrite QTreeInsert_S. cbn [bdry].
  destruct (BBoxContainsPoint bb spp); cbn [negb]; [| reflexivity].
  apply Z.ltb_lt in Hlt. rewrite Hlt, (leaf_append_ok _ _ _ Hc). reflexivity.
Qed.

Lemma insert_into_children_returns
      (ins : QuadTree -> SpikePair -> option (bool * QuadTree))
      (P Q : QuadTree -> Prop) (spp : SpikePair) (k : children) :
  (forall qt, P qt -> exists b qt', ins qt spp = Some (b, qt') /\ Q qt') ->
  (forall qt, P qt -> Q qt) ->
  all4 P k ->
  exists b k', insert_into_children ins k spp = Some (b, k') /\ all4 Q k'.
Proof.
  intros Hins PQ. destruct k as [[[nw sw] ne] se].
  intros (Pnw & Psw & Pne & Pse). unfold insert_into_children.
  destruct (Hins nw Pnw) as (b1 & nw' & -> & Qnw).
  destruct b1; [exists true, (nw', sw, ne, se); cbn; auto 7 |].
  destruct (Hins sw Psw) as (b2 & sw' & -> & Qsw).
  destruct b2; [exists true, (nw', sw', ne, se); cbn; auto 7 |].
  destruct (Hins ne Pne) as (b3 & ne' & -> & Qne).
  destruct b3; [exists true, (nw', sw', ne', se); cbn; auto 7 |].
  destruct (Hins se Pse) as (b4 & se' & -> & Qse).
  exists b4, (nw', sw', ne', se'). cbn. auto 7.
Qed.

(** *** Subdivision returns *)

Lemma draining_leaf_tail (U : list (Z * Z)) (h : float) (spp : SpikePair)
      (rest : list SpikePair) (qt : QuadTree) :
  draining_leaf U h (spp :: rest) qt -> draining_leaf U h rest qt.
Proof.
  destruct qt as [cap bb ps |]; [| exact (fun F => F)].
  cbn. intros (W & C & L & N & F & D).
  repeat (split; [assumption || lia |]). intros s Hs. apply D. right. exact Hs.
Qed.

Lemma QTreeInsert_draining_leaf (fuel : nat) (U : list (Z * Z)) (h : float)
      (spp : SpikePair) (rest : list SpikePair) (qt : QuadTree) :
  draining_leaf U h (spp :: rest) qt ->
  In (point spp) U ->
  ~ In (point spp) (map point rest) ->
  exists b qt', QTreeInsert (S fuel) qt spp = Some (b, qt') /\
                draining_leaf U h rest qt'.
Proof.
  intros DL InU Fresh.
  pose proof (draining_leaf_tail _ _ _ _ _ DL) as DT.
  destruct qt as [cap bb ps |]; [| destruct DL].
  destruct DL as (W & C & L & N & F & D). cbn [length] in L.
  rewrite QTreeInsert_leaf by (unfold QT_MAX_CAP; lia).
  destruct (BBoxContainsPoint bb spp) eqn:B; [| eauto].
  do 2 eexists. split; [reflexivity |]. cbn.
  rewrite length_app, map_app. cbn [length map].
  split; [exact W |]. split; [lia |]. split; [lia |].
  split; [apply NoDup_snoc; [exact N | apply D; left; reflexivity] |].
  split; [apply Forall_app; split; [exact F | constructor; [split; assumption | constructor]] |].
  intros s Hs Hin. apply in_app_or in Hin. destruct Hin as [Hin | [Hin | []]].
  - apply (D s); [right; exact Hs | exact Hin].
  - apply Fresh. rewrite Hin. apply in_map. exact Hs.
Qed.

Lemma drain_returns (fuel : nat) (U : list (Z * Z)) (h : float)
      (ps : list SpikePair) :
  forall k : children,
    NoDup (map point ps) ->
    (forall spp, In spp ps -> In (point spp) U) ->
    all4 (draining_leaf U h ps) k ->
    exists k', drain (QTreeInsert (S fuel)) (Z.of_nat (length ps)) ps k
               = Some (0%Z, [], k') /\
               all4 (draining_leaf U h []) k'.
Proof.
  induction ps as [| spp rest IH]; intros k N InU A.
  - exists k. split; [reflexivity | exact A].
  - cbn [map] in N. apply NoDup_cons_iff in N. destruct N as [Fresh N].
    destruct (insert_into_children_returns (QTreeInsert (S fuel))
                (draining_leaf U h (spp :: rest)) (draining_leaf U h rest) spp k)
      as (b & k1 & E & A1).
    + intros qt DL. apply QTreeInsert_draining_leaf;
        [exact DL | apply InU; left; reflexivity | exact Fresh].
    + intros qt. apply draining_leaf_tail.
    + exact A.
    + destruct (IH k1 N (fun s Hs => InU s (or_intror Hs)) A1) as (k' & E' & A').
      exists k'. split; [| exact A'].
      cbn [drain length]. rewrite E.
      replace (Z.of_nat (S (length rest)) - 1)%Z with (Z.of_nat (length rest)) by lia.
      destruct (Z.ltb_spec 0 (Z.of_nat (S (length rest)))) as [_ | Hle]; [exact E' | lia].
Qed.

Lemma draining_leaf_wf (U : list (Z * Z)) (h : float) (qt : QuadTree) :
  draining_leaf U h [] qt -> w2 (bdry qt) = h /\ wf U qt.
Proof.
  destruct qt as [cap bb ps |]; [| intros []].
  cbn. intros (W & C & L & N & F & _). split; [exact W |].
  unfold leaf_ok, QT_MAX_CAP. repeat (split; [assumption || lia |]). exact F.
Qed.

Lemma draining_leaf_fresh (U : list (Z * Z)) (bb : BoundingBox)
      (ps : list SpikePair) :
  (length ps <= 4)%nat -> draining_leaf U (w2 bb) ps (QTreeCreate bb).
Proof.
  intro L. cbn. split; [reflexivity |]. split; [reflexivity |].
  split; [exact L |]. split; [apply NoDup_nil |]. split; [apply Forall_nil |].
  intros s _ [].
Qed.

Lemma QTreeSubdivide_returns (fuel : nat) (U : list (Z * Z)) (cap : Z)
      (bb : BoundingBox) (ps : list SpikePair) :
  leaf_ok U cap bb ps ->
  exists nw sw ne se,
    QTreeSubdivide (QTreeInsert (S fuel)) (Leaf cap bb ps)
    = Some (Quad 0 bb [] nw sw ne se) /\
    all4 (fun c => w2 (bdry c) = w2 bb / 2 /\ wf U c) (nw, sw, ne, se).
Proof.
  intros (C & L & N & F). unfold QTreeSubdivide. cbn [capacity pairs bdry].
  match goal with
  | |- context [drain _ _ _ ?k0] =>
    destruct (drain_returns fuel U (w2 bb / 2) ps k0 N) as (k' & E & A)
  end.
  - intros s Hs. rewrite Forall_forall in F. apply (F s Hs).
  - unfold QT_MAX_CAP in L.
    assert (length ps <= 4)%nat as L' by lia.
    unfold all4.
    split; [| split; [| split]];
      exact (draining_leaf_fresh U (BBoxCreate _ _ (w2 bb / 2)) ps L').
  - rewrite C, E. destruct k' as [[[nw sw] ne] se].
    exists nw, sw, ne, se. split; [reflexivity |].
    destruct A as (A1 & A2 & A3 & A4).
    repeat split; apply (draining_leaf_wf U (w2 bb / 2)); assumption.
Qed.

(** *** Every insertion returns *)

Lemma wf_mono (U U' : list (Z * Z)) (qt : QuadTree) :
  incl U U' -> wf U qt -> wf U' qt.
Proof.
  intro I. induction qt as [cap bb ps | cap bb ps nw IHnw sw IHsw ne IHne se IHse].
  - cbn. intros (C & L & N & F). repeat (split; [assumption |]).
    revert F. apply Forall_impl. intros s [B H]. split; [exact B | apply I, H].
  - cbn. intuition.
Qed.

Lemma pow2_half (w : float) (k : nat) :
  w <= inject_Z (2 ^ Z.of_nat (S k)) -> w / 2 <= inject_Z (2 ^ Z.of_nat k).
Proof.
  rewrite Nat2Z.inj_succ, Z.pow_succ_r by lia. rewrite inject_Z_mult.
  change (inject_Z 2) with 2. generalize (inject_Z (2 ^ Z.of_nat k)).
  intros p H. apply Qle_shift_div_r; [reflexivity | lra].
Qed.

Lemma QTreeInsert_returns :
  forall (fuel k : nat) (qt : QuadTree) (spp : SpikePair) (U : list (Z * Z)),
    (k + 2 <= fuel)%nat ->
    wf U qt ->
    ~ In (point spp) U ->
    w2 (bdry qt) <= inject_Z (2 ^ Z.of_nat k) ->
    exists b qt', QTreeInsert fuel qt spp = Some (b, qt') /\
                  wf (point spp :: U) qt' /\ bdry qt' = bdry qt.
Proof.
  induction fuel as [| fuel IH]; intros k qt spp U Hk Hwf Hnew Hw; [lia |].
  rewrite QTreeInsert_S.
  destruct (BBoxContainsPoint (bdry qt) spp) eqn:B; cbn [negb]; cbv zeta.
  2: { exists false, qt. split; [reflexivity |]. split; [| reflexivity].
       apply (wf_mono U); [apply incl_tl, incl_refl | exact Hwf]. }
  assert (forall bb nw sw ne se,
             1 < w2 bb -> w2 bb <= inject_Z (2 ^ Z.of_nat k) ->
             all4 (fun c => w2 (bdry c) = w2 bb / 2 /\ wf U c) (nw, sw, ne, se) ->
             exists b nw' sw' ne' se',
               insert_into_children (QTreeInsert fuel) (nw, sw, ne, se) spp
               = Some (b, (nw', sw', ne', se')) /\
               wf (point spp :: U) (Quad 0 bb [] nw' sw' ne' se')) as Hdesc.
  { intros bb nw sw ne se W1 Wk A.
    destruct k as [| k']; [exfalso; change (inject_Z (2 ^ Z.of_nat 0)) with 1 in Wk; lra |].
    destruct (insert_into_children_returns (QTreeInsert fuel)
                (fun c => w2 (bdry c) = w2 bb / 2 /\ wf U c)
                (fun c => w2 (bdry c) = w2 bb / 2 /\ wf (point spp :: U) c)
                spp (nw, sw, ne, se)) as (b & k1 & E & A1).
    - intros c [Wc Fc].
      destruct (IH k' c spp U ltac:(lia) Fc Hnew) as (b & c' & E & F' & Bd).
      { rewrite Wc. apply pow2_half, Wk. }
      exists b, c'. split; [exact E |]. split; [rewrite Bd; exact Wc | exact F'].
    - intros c [Wc Fc]. split; [exact Wc |].
      apply (wf_mono U); [apply incl_tl, incl_refl | exact Fc].
    - exact A.
    - destruct k1 as [[[nw' sw'] ne'] se']. exists b, nw', sw', ne', se'.
      split; [exact E |]. destruct A1 as (A1 & A2 & A3 & A4).
      cbn [wf]. auto 10. }
  destruct qt as [cap bb ps | cap bb ps nw sw ne se]; cbn [bdry] in *.
  - destruct Hwf as (C & L & N & F).
    assert (Forall (fun s => BBoxContainsPoint bb s = true) ps) as Fb.
    { revert F. apply Forall_impl. intros s [Hb _]. exact Hb. }
    assert (~ In (point spp) (map point ps)) as Hfresh.
    { intro Hin. apply in_map_iff in Hin. destruct Hin as (s & Es & Hs).
      rewrite Forall_forall in F. apply Hnew. rewrite <- Es. apply (F s Hs). }
    destruct (Z.ltb_spec cap QT_MAX_CAP) as [Hlt | Hge].
    + rewrite (leaf_append_ok _ _ _ C).
      exists true, (Leaf (cap + 1) bb (ps ++ [spp])).
      split; [reflexivity |]. split; [| reflexivity].
      cbn. unfold leaf_ok. rewrite length_app, map_app. cbn [length map].
      unfold QT_MAX_CAP in *.
      split; [lia |]. split; [lia |].
      split; [apply NoDup_snoc; assumption |].
      apply Forall_app. split.
      * revert F. apply Forall_impl. intros s [Hb Hu]. split; [exact Hb | right; exact Hu].
      * constructor; [split; [exact B | left; reflexivity] | constructor].
    + assert (1 < w2 bb) as W1.
      { destruct (Qlt_le_dec 1 (w2 bb)) as [W1 | W1]; [exact W1 | exfalso].
        pose proof (small_box_holds_at_most_four bb (spp :: ps) W1) as S5.
        cbn [map length] in S5. unfold QT_MAX_CAP in Hge.
        enough (S (length ps) <= 4)%nat by lia.
        apply S5; constructor; assumption. }
      destruct fuel as [| fuel']; [lia |].
      destruct (QTreeSubdivide_returns fuel' U cap bb ps)
        as (nw & sw & ne & se & E & A).
      { repeat split; assumption. }
      rewrite E.
      destruct (Hdesc bb nw sw ne se W1 Hw A) as (b & nw' & sw' & ne' & se' & E' & W').
      rewrite E'. exists b, (Quad 0 bb [] nw' sw' ne' se').
      split; [reflexivity |]. split; [exact W' | reflexivity].
  - destruct Hwf as (-> & -> & W1 & Hnw & Hsw & Hne & Hse).
    destruct (Hdesc bb nw sw ne se W1 Hw) as (b & nw' & sw' & ne' & se' & E' & W').
    { cbn. auto. }
    rewrite E'. exists b, (Quad 0 bb [] nw' sw' ne' se').
    split; [reflexivity |]. split; [exact W' | reflexivity].
Qed.

Lemma insert_all_returns (fuel k : nat) (l : list SpikePair) :
  forall (qt : QuadTree) (U : list (Z * Z)),
    (k + 2 <= fuel)%nat ->
    wf U qt ->
    w2 (bdry qt) <= inject_Z (2 ^ Z.of_nat k) ->
    NoDup (map point l) ->
    (forall spp, In spp l -> ~ In (point spp) U) ->
    exists flags qt', insert_all fuel qt l = Some (flags, qt') /\
                      length flags = length l /\
                      (exists U', wf U' qt') /\ bdry qt' = bdry qt.
Proof.
  induction l as [| spp rest IH]; intros qt U Hk Hwf Hw N D.
  - exists [], qt. cbn. eauto 6.
  - cbn [map] in N. apply NoDup_cons_iff in N. destruct N as [Fresh N].
    destruct (QTreeInsert_returns fuel k qt spp U Hk Hwf (D spp (or_introl eq_refl)) Hw)
      as (b & qt1 & E & Hwf1 & Bd).
    destruct (IH qt1 (point spp :: U) Hk Hwf1) as (bs & qt2 & E2 & Len & HU & Bd2).
    + rewrite Bd. exact Hw.
    + exact N.
    + intros s Hs [Eq | Hin].
      * apply Fresh. rewrite Eq. apply in_map, Hs.
      * apply (D s (or_intror Hs) Hin).
    + exists (b :: bs), qt2. cbn [insert_all length]. rewrite E, E2.
      split; [reflexivity |]. split; [congruence |]. split; [exact HU | congruence].
Qed.

Lemma depth_bound_covers (bbox : BoundingBox) :
  w2 bbox <= inject_Z (2 ^ Z.of_nat (Z.to_nat (Z.log2_up (Qceiling (w2 bbox))))).
Proof.
  rewrite Z2Nat.id by apply Z.log2_up_nonneg.
  apply Qle_trans with (inject_Z (Qceiling (w2 bbox))); [apply Qle_ceiling |].
  rewrite <- Zle_Qle.
  destruct (Z.lt_ge_cases 0 (Qceiling (w2 bbox))) as [P | NP].
  - apply Z.log2_log2_up_spec, P.
  - pose proof (Z.pow_nonneg 2 (Z.log2_up (Qceiling (w2 bbox)))). lia.
Qed.



(** ** Further properties of the specification *)

(** A query whose region does not intersect the root box calls the visitor
    on nothing. *)
Lemma QTreeMapQueryRange_disjoint {S : Type} (qt : QuadTree) (r : BoundingBox)
      (func : SpikePair -> S -> S) (s : S) :
  BBoxIntersects (bdry qt) r = false -> QTreeMapQueryRange qt r func s = s.
Proof.
  intro H. destruct qt; cbn [QTreeMapQueryRange bdry] in *; rewrite H; reflexivity.
Qed.

Lemma QTreeMapQueryRange_disjoint_witness :
  visited (Leaf 1 (mkBBox 0 0 1) [pt 0 0]) (mkBBox 5 5 1) = [].
Proof.
  apply (QTreeMapQueryRange_disjoint (Leaf 1 (mkBBox 0 0 1) [pt 0 0]) (mkBBox 5 5 1)).
  reflexivity.
Defined.

(** A pair that the box of a node does not contain is refused, and the tree
    is left as it was. *)
Lemma QTreeInsert_outside (fuel : nat) (qt : QuadTree) (spp : SpikePair) :
  BBoxContainsPoint (bdry qt) spp = false ->
  QTreeInsert (S fuel) qt spp = Some (false, qt).
Proof. intro H. rewrite QTreeInsert_S, H. reflexivity. Qed.

Lemma QTreeInsert_outside_witness :
  QTreeInsert 1 (QTreeCreate (mkBBox 0 0 1)) (pt 5 5)
  = Some (false, QTreeCreate (mkBBox 0 0 1)).
Proof.
  apply (QTreeInsert_outside 0 (QTreeCreate (mkBBox 0 0 1)) (pt 5 5)). reflexivity.
Defined.

(** A box of half-width 0 (or less) contains nothing: the quadtree of a
    recording with [t_min = t_max] stays empty. *)
Lemma QTreeInsert_empty_box (fuel : nat) (bbox : BoundingBox) (spp : SpikePair) :
  w2 bbox <= 0 ->
  QTreeInsert (S fuel) (QTreeCreate bbox) spp = Some (false, QTreeCreate bbox).
Proof.
  intro W. rewrite QTreeInsert_S. cbn [bdry QTreeCreate].
  destruct (BBoxContainsPoint bbox spp) eqn:B; [exfalso | reflexivity].
  apply BBoxContainsPoint_iff in B. destruct B as [Bx _].
  pose proof (truncated_distance_nonneg (float_of_long (ts (sp1 spp)) - c_x bbox)).
  lra.
Qed.

Lemma QTreeInsert_empty_box_witness :
  QTreeInsert 1 (QTreeCreate (mkBBox 7 7 0)) (pt 7 7)
  = Some (false, QTreeCreate (mkBBox 7 7 0)).
Proof.
  apply (QTreeInsert_empty_box 0 (mkBBox 7 7 0) (pt 7 7)). discriminate.
Defined.


Lemma wf_within_capacity (U : list (Z * Z)) (qt : QuadTree) :
  wf U qt -> within_capacity qt.
Proof.
  induction qt as [cap bb ps | cap bb ps nw IHnw sw IHsw ne IHne se IHse]; cbn.
  - intros (C & L & _). split; assumption.
  - intros (C & P & _ & (_ & Hnw) & (_ & Hsw) & (_ & Hne) & (_ & Hse)). auto 7.
Qed.



(** *** What a query visits *)

Lemma fold_collect (ps seen : list SpikePair) :
  fold_left (fun acc spp => collect spp acc) ps seen = seen ++ ps.
Proof.
  revert seen. induction ps as [| p ps IH]; intro seen; cbn [fold_left].
  - symmetry. apply app_nil_r.
  - rewrite IH. unfold collect. rewrite <- app_assoc. reflexivity.
Qed.

Lemma QTreeMapQueryRange_collect (qt : QuadTree) (r : BoundingBox) :
  forall seen, QTreeMapQueryRange qt r collect seen = seen ++ visited qt r.
Proof.
  unfold visited.
  induction qt as [cap bb ps | cap bb ps nw IHnw sw IHsw ne IHne se IHse];
    intro seen; cbn [QTreeMapQueryRange bdry];
    destruct (BBoxIntersects bb r); cbn [negb]; try (symmetry; apply app_nil_r).
  - rewrite !fold_collect. reflexivity.
  - cbv zeta. rewrite !fold_collect. cbn [app].
    rewrite (IHse (QTreeMapQueryRange ne r collect _)).
    rewrite (IHne (QTreeMapQueryRange sw r collect _)).
    rewrite (IHsw (QTreeMapQueryRange nw r collect _)).
    rewrite (IHnw (seen ++ ps)).
    symmetry.
    rewrite (IHse (QTreeMapQueryRange ne r collect _)).
    rewrite (IHne (QTreeMapQueryRange sw r collect _)).
    rewrite (IHsw (QTreeMapQueryRange nw r collect _)).
    rewrite (IHnw ps).
    rewrite <- !app_assoc. reflexivity.
Qed.

Lemma visited_Leaf (cap : Z) (bb : BoundingBox) (ps : list SpikePair)
      (r : BoundingBox) :
  visited (Leaf cap bb ps) r = if BBoxIntersects bb r then ps else [].
Proof.
  unfold visited. cbn [QTreeMapQueryRange bdry].
  destruct (BBoxIntersects bb r); cbn [negb]; [apply fold_collect | reflexivity].
Qed.

Lemma visited_Quad (cap : Z) (bb : BoundingBox) (ps : list SpikePair)
      (nw sw ne se : QuadTree) (r : BoundingBox) :
  visited (Quad cap bb ps nw sw ne se) r =
  if BBoxIntersects bb r
  then ps ++ visited nw r ++ visited sw r ++ visited ne r ++ visited se r
  else [].
Proof.
  unfold visited at 1. cbn [QTreeMapQueryRange bdry].
  destruct (BBoxIntersects bb r); cbn [negb]; [| reflexivity]. cbv zeta.
  rewrite !QTreeMapQueryRange_collect, fold_collect. cbn [app].
  rewrite <- !app_assoc. reflexivity.
Qed.

(** The visitor is called on stored pairs only, whatever the region. *)
Lemma visited_incl_stored (qt : QuadTree) (r : BoundingBox) :
  incl (visited qt r) (stored qt).
Proof.
  induction qt as [cap bb ps | cap bb ps nw IHnw sw IHsw ne IHne se IHse].
  - rewrite visited_Leaf. cbn [stored].
    destruct (BBoxIntersects bb r); [apply incl_refl | intros x []].
  - rewrite visited_Quad. cbn [stored].
    destruct (BBoxIntersects bb r); [| intros x []].
    repeat (apply incl_app_app; [assumption || apply incl_refl |]). assumption.
Qed.

(** *** What an accepted insertion stores *)

Lemma insert_into_children_true
      (ins : QuadTree -> SpikePair -> option (bool * QuadTree))
      (spp : SpikePair) (k k' : children) :
  (forall qt qt', ins qt spp = Some (true, qt') -> In spp (stored qt')) ->
  insert_into_children ins k spp = Some (true, k') ->
  let '(nw, sw, ne, se) := k' in
  In spp (stored nw ++ stored sw ++ stored ne ++ stored se).
Proof.
  intros Hins. destruct k as [[[nw sw] ne] se]. unfold insert_into_children.
  destruct (ins nw spp) as [[[] nw'] |] eqn:E1; try discriminate.
  { intros [= <-]. apply in_or_app. left. apply (Hins _ _ E1). }
  destruct (ins sw spp) as [[[] sw'] |] eqn:E2; try discriminate.
  { intros [= <-]. apply in_or_app. right. apply in_or_app. left.
    apply (Hins _ _ E2). }
  destruct (ins ne spp) as [[[] ne'] |] eqn:E3; try discriminate.
  { intros [= <-]. do 2 (apply in_or_app; right). apply in_or_app. left.
    apply (Hins _ _ E3). }
  destruct (ins se spp) as [[[] se'] |] eqn:E4; try discriminate.
  intros [= <-]. do 3 (apply in_or_app; right). apply (Hins _ _ E4).
Qed.

(** When [QTreeInsert] returns TRUE, the pair is stored in the tree. *)
Lemma QTreeInsert_true_stores :
  forall (fuel : nat) (qt qt' : QuadTree) (spp : SpikePair),
    QTreeInsert fuel qt spp = Some (true, qt') -> In spp (stored qt').
Proof.
  induction fuel as [| fuel IH]; intros qt qt' spp; [discriminate |].
  rewrite QTreeInsert_S.
  destruct (BBoxContainsPoint (bdry qt) spp); cbn [negb]; [| discriminate].
  cbv zeta.
  assert (forall cap bb ps k,
             match insert_into_children (QTreeInsert fuel) k spp with
             | Some (b, (nw, sw, ne, se)) => Some (b, Quad cap bb ps nw sw ne se)
             | None => None
             end = Some (true, qt') -> In spp (stored qt')) as Hdesc.
  { intros cap bb ps k.
    destruct (insert_into_children (QTreeInsert fuel) k spp)
      as [[b [[[nw sw] ne] se]] |] eqn:E; [| discriminate].
    intros [= -> <-]. cbn [stored]. apply in_or_app. right.
    exact (insert_into_children_true _ spp k _ (fun q q' => IH q q' spp) E). }
  destruct qt as [cap bb ps | cap bb ps nw sw ne se].
  - destruct (cap <? QT_MAX_CAP)%Z.
    + unfold leaf_append.
      destruct (cap =? 0)%Z; [intros [= <-]; cbn; auto |].
      destruct ps as [| p ps]; [discriminate |].
      intros [= <-]. cbn [stored]. apply (in_or_app (p :: ps) [spp]).
      right. left. reflexivity.
    + destruct (QTreeSubdivide (QTreeInsert fuel) (Leaf cap bb ps))
        as [[| cap' bb' ps' nw sw ne se] |]; try discriminate.
      apply Hdesc.
  - apply Hdesc.
Qed.

Lemma QTreeInsert_true_stores_witness :
  In (pt 4 4) (stored (Leaf 1 (mkBBox 0 0 8) [pt 4 4])).
Proof.
  apply (QTreeInsert_true_stores 1 (QTreeCreate (mkBBox 0 0 8))
           (Leaf 1 (mkBBox 0 0 8) [pt 4 4]) (pt 4 4)).
  reflexivity.
Defined.

(** ** What an insertion does to the tree *)

Lemma insert_into_children_inv
      (ins : QuadTree -> SpikePair -> option (bool * QuadTree)) (spp : SpikePair)
      (nw sw ne se nw' sw' ne' se' : QuadTree) (b : bool) :
  insert_into_children ins (nw, sw, ne, se) spp = Some (b, (nw', sw', ne', se')) ->
  (ins nw spp = Some (true, nw') /\ sw' = sw /\ ne' = ne /\ se' = se /\ b = true) \/
  (ins nw spp = Some (false, nw') /\ ins sw spp = Some (true, sw') /\
   ne' = ne /\ se' = se /\ b = true) \/
  (ins nw spp = Some (false, nw') /\ ins sw spp = Some (false, sw') /\
   ins ne spp = Some (true, ne') /\ se' = se /\ b = true) \/
  (ins nw spp = Some (false, nw') /\ ins sw spp = Some (false, sw') /\
   ins ne spp = Some (false, ne') /\ ins se spp = Some (b, se')).
Proof.
  unfold insert_into_children.
  destruct (ins nw spp) as [[[] nw1] |]; try discriminate.
  { intros [= <- <- <- <- <-]. left. auto 6. }
  destruct (ins sw spp) as [[[] sw1] |]; try discriminate.
  { intros [= <- <- <- <- <-]. right. left. auto 6. }
  destruct (ins ne spp) as [[[] ne1] |]; try discriminate.
  { intros [= <- <- <- <- <-]. right. right. left. auto 6. }
  destruct (ins se spp) as [[b4 se1] |]; try discriminate.
  intros [= <- <- <- <- <-]. right. right. right. auto.
Qed.

Lemma occurrences_app (x : SpikePair) (l l' : list SpikePair) :
  occurrences x (l ++ l') = (occurrences x l + occurrences x l')%nat.
Proof. apply count_occ_app. Qed.

Lemma insert_effect_refl (spp : SpikePair) (qt : QuadTree) :
  insert_effect spp false qt qt.
Proof.
  split; [reflexivity |]. split; [exact (fun H => H) |].
  split; [intro x; lia | discriminate].
Qed.

(** The four attempts on the children, seen from the parent. *)
Lemma insert_into_children_effect
      (ins : QuadTree -> SpikePair -> option (bool * QuadTree)) (spp : SpikePair)
      (nw sw ne se nw' sw' ne' se' : QuadTree) (b : bool) :
  (forall q b q', ins q spp = Some (b, q') -> insert_effect spp b q q') ->
  insert_into_children ins (nw, sw, ne, se) spp = Some (b, (nw', sw', ne', se')) ->
  (bdry nw' = bdry nw /\ bdry sw' = bdry sw /\ bdry ne' = bdry ne /\ bdry se' = bdry se) /\
  (tiled nw /\ tiled sw /\ tiled ne /\ tiled se ->
   tiled nw' /\ tiled sw' /\ tiled ne' /\ tiled se') /\
  (forall x, (occurrences x (stored4 (nw', sw', ne', se'))
              <= occurrences x (stored4 (nw, sw, ne, se))
                 + (if b then occurrences x [spp] else 0))%nat).
Proof.
  intros Hins E. apply insert_into_children_inv in E.
  assert (forall q, insert_effect spp false q q) as Hrefl
      by (intro q; apply insert_effect_refl).
  assert (exists b1 b2 b3 b4,
             insert_effect spp b1 nw nw' /\ insert_effect spp b2 sw sw' /\
             insert_effect spp b3 ne ne' /\ insert_effect spp b4 se se' /\
             ((b1 = true /\ b2 = false /\ b3 = false /\ b4 = false /\ b = true) \/
              (b1 = false /\ b2 = true /\ b3 = false /\ b4 = false /\ b = true) \/
              (b1 = false /\ b2 = false /\ b3 = true /\ b4 = false /\ b = true) \/
              (b1 = false /\ b2 = false /\ b3 = false /\ b4 = b)))
    as (b1 & b2 & b3 & b4 & (B1 & T1 & C1 & _) & (B2 & T2 & C2 & _)
        & (B3 & T3 & C3 & _) & (B4 & T4 & C4 & _) & Hflags).
  { destruct E as [(E1 & -> & -> & -> & ->) | [(E1 & E2 & -> & -> & ->)
             | [(E1 & E2 & E3 & -> & ->) | (E1 & E2 & E3 & E4)]]].
    - exists true, false, false, false.
      split; [apply Hins, E1 |]. do 3 (split; [apply Hrefl |]). left. auto.
    - exists false, true, false, false.
      split; [apply Hins, E1 |]. split; [apply Hins, E2 |].
      do 2 (split; [apply Hrefl |]). right. left. auto.
    - exists false, false, true, false.
      split; [apply Hins, E1 |]. split; [apply Hins, E2 |].
      split; [apply Hins, E3 |]. split; [apply Hrefl |]. right. right. left. auto.
    - exists false, false, false, b.
      split; [apply Hins, E1 |]. split; [apply Hins, E2 |].
      split; [apply Hins, E3 |]. split; [apply Hins, E4 |]. right. right. right. auto. }
  split; [auto |]. split; [intuition |].
  intro x. unfold stored4. rewrite !occurrences_app.
  specialize (C1 x). specialize (C2 x). specialize (C3 x). specialize (C4 x).
  destruct Hflags as [(-> & -> & -> & -> & ->) | [(-> & -> & -> & -> & ->)
           | [(-> & -> & -> & -> & ->) | (-> & -> & -> & ->)]]];
    try destruct b; lia.
Qed.

(** The drain loop of [QTreeSubdivide], seen from the node: the pairs it
    leaves in the list and in the children were in the list or in the
    children before. *)
Lemma drain_effect (ins : QuadTree -> SpikePair -> option (bool * QuadTree)) :
  (forall spp q b q', ins q spp = Some (b, q') -> insert_effect spp b q q') ->
  forall (ps : list SpikePair) (cap : Z) (nw sw ne se : QuadTree)
         (cap' : Z) (ps' : list SpikePair) (nw' sw' ne' se' : QuadTree),
    drain ins cap ps (nw, sw, ne, se) = Some (cap', ps', (nw', sw', ne', se')) ->
    (bdry nw' = bdry nw /\ bdry sw' = bdry sw /\
     bdry ne' = bdry ne /\ bdry se' = bdry se) /\
    (tiled nw /\ tiled sw /\ tiled ne /\ tiled se ->
     tiled nw' /\ tiled sw' /\ tiled ne' /\ tiled se') /\
    (forall x, (occurrences x (stored4 (nw', sw', ne', se')) + occurrences x ps'
                <= occurrences x (stored4 (nw, sw, ne, se)) + occurrences x ps)%nat).
Proof.
  intro Hins. induction ps as [| spp rest IH];
    intros cap nw sw ne se cap' ps' nw' sw' ne' se' E; cbn [drain] in E;
    destruct (0 <? cap)%Z; try discriminate;
    try (injection E as <- <- <- <- <- <-; split; [auto |]; split; [auto |];
         intro x; lia).
  destruct (insert_into_children ins (nw, sw, ne, se) spp)
    as [[b [[[nw1 sw1] ne1] se1]] |] eqn:E1; [| discriminate].
  apply (insert_into_children_effect ins spp) in E1; [| apply Hins].
  apply IH in E. destruct E1 as ((A1 & A2 & A3 & A4) & T1 & C1).
  destruct E as ((D1 & D2 & D3 & D4) & T2 & C2).
  split; [repeat split; congruence |]. split; [auto |].
  intro x. specialize (C1 x). specialize (C2 x).
  change (occurrences x (spp :: rest))
    with (occurrences x ([spp] ++ rest)).
  rewrite occurrences_app. destruct b; lia.
Qed.

Lemma QTreeInsert_effect :
  forall (fuel : nat) (qt : QuadTree) (spp : SpikePair) (b : bool) (qt' : QuadTree),
    QTreeInsert fuel qt spp = Some (b, qt') -> insert_effect spp b qt qt'.
Proof.
  induction fuel as [| fuel IH]; intros qt spp b qt'; [discriminate |].
  rewrite QTreeInsert_S.
  destruct (BBoxContainsPoint (bdry qt) spp) eqn:B; cbn [negb]; cbv zeta.
  2: { intros [= <- <-]. apply insert_effect_refl. }
  assert (forall cap bb ps nw sw ne se,
             match insert_into_children (QTreeInsert fuel) (nw, sw, ne, se) spp with
             | Some (b, (nw, sw, ne, se)) => Some (b, Quad cap bb ps nw sw ne se)
             | None => None
             end = Some (b, qt') ->
             exists nw' sw' ne' se',
               qt' = Quad cap bb ps nw' sw' ne' se' /\
               (bdry nw' = bdry nw /\ bdry sw' = bdry sw /\
                bdry ne' = bdry ne /\ bdry se' = bdry se) /\
               (tiled nw /\ tiled sw /\ tiled ne /\ tiled se ->
                tiled nw' /\ tiled sw' /\ tiled ne' /\ tiled se') /\
               (forall x, (occurrences x (stored4 (nw', sw', ne', se'))
                           <= occurrences x (stored4 (nw, sw, ne, se))
                              + (if b then occurrences x [spp] else 0))%nat))
    as Hdesc.
  { intros cap bb ps nw sw ne se.
    destruct (insert_into_children (QTreeInsert fuel) (nw, sw, ne, se) spp)
      as [[b' [[[nw' sw'] ne'] se']] |] eqn:E; [| discriminate].
    intros [= -> <-]. exists nw', sw', ne', se'. split; [reflexivity |].
    apply (insert_into_children_effect (QTreeInsert fuel) spp); [| exact E].
    intros q b0 q'. apply IH. }
  destruct qt as [cap bb ps | cap bb ps nw sw ne se]; cbn [bdry] in *.
  - destruct (cap <? QT_MAX_CAP)%Z.
    + assert (forall ps1, (ps1 = [spp] \/ ps1 = ps ++ [spp]) ->
                          insert_effect spp true (Leaf cap bb ps)
                                        (Leaf (cap + 1) bb ps1)) as Hleaf.
      { intros ps1 H1. split; [reflexivity |]. split; [exact (fun H => H) |].
        split; [| intros _; exact B]. intro x. cbn [stored].
        destruct H1 as [-> | ->]; [| rewrite occurrences_app]; lia. }
      unfold leaf_append. destruct (cap =? 0)%Z.
      * intros [= <- <-]. apply Hleaf. left. reflexivity.
      * destruct ps as [| p ps0]; [discriminate |].
        intros [= <- <-]. apply Hleaf. right. reflexivity.
    + unfold QTreeSubdivide. cbn [capacity pairs bdry].
      match goal with
      | |- context [drain _ _ _ ?k0] =>
        destruct (drain (QTreeInsert fuel) cap ps k0)
          as [[[cap1 ps1] [[[nw1 sw1] ne1] se1]] |] eqn:Ed; [| discriminate]
      end.
      apply (drain_effect (QTreeInsert fuel)) in Ed; [| intros s q b0 q'; apply IH].
      destruct Ed as ((D1 & D2 & D3 & D4) & Td & Cd).
      intro E. apply Hdesc in E.
      destruct E as (nw' & sw' & ne' & se' & -> & (A1 & A2 & A3 & A4) & Ta & Ca).
      split; [reflexivity |]. split.
      * intros _. cbn [tiled]. cbv zeta.
        rewrite A1, A2, A3, A4, D1, D2, D3, D4. cbn [bdry QTreeCreate].
        do 4 (split; [reflexivity |]). apply Ta, Td. cbn. auto.
      * split; [| intros _; exact B]. intro x.
        specialize (Cd x). specialize (Ca x).
        cbn [stored]. fold (stored4 (nw', sw', ne', se')).
        rewrite occurrences_app.
        match type of Cd with
        | context [stored4 (QTreeCreate ?a, ?b, ?c, ?d)] =>
          change (stored4 (QTreeCreate a, b, c, d)) with (@nil SpikePair) in Cd
        end.
        change (occurrences x []) with 0%nat in Cd. destruct b; lia.
  - intro E. apply Hdesc in E.
    destruct E as (nw' & sw' & ne' & se' & -> & (A1 & A2 & A3 & A4) & Ta & Ca).
    split; [reflexivity |]. split.
    + cbn [tiled]. cbv zeta. rewrite A1, A2, A3, A4.
      intros (T1 & T2 & T3 & T4 & T5). do 4 (split; [assumption |]).
      apply Ta, T5.
    + split; [| intros _; exact B]. intro x. specialize (Ca x).
      cbn [stored]. fold (stored4 (nw', sw', ne', se')).
      fold (stored4 (nw, sw, ne, se)). rewrite !occurrences_app. destruct b; lia.
Qed.

(** ** Sequences of insertions and the query on the root box *)

Lemma occurrences_accepted (x : SpikePair) (flags : list bool) :
  forall l, (occurrences x (accepted flags l) <= occurrences x l)%nat.
Proof.
  unfold occurrences.
  induction flags as [| b flags IH]; intros [| spp l];
    try (cbn; lia); try (destruct b; cbn; lia).
  specialize (IH l).
  destruct b; cbn [accepted count_occ]; destruct (SpikePair_eq_dec spp x); lia.
Qed.

Lemma insert_all_effect (fuel : nat) (l : list SpikePair) :
  forall (qt : QuadTree) (flags : list bool) (qt' : QuadTree),
    insert_all fuel qt l = Some (flags, qt') ->
    bdry qt' = bdry qt /\
    (tiled qt -> tiled qt') /\
    length flags = length l /\
    (forall x, (occurrences x (stored qt')
                <= occurrences x (stored qt) + occurrences x (accepted flags l))%nat) /\
    Forall (fun spp => BBoxContainsPoint (bdry qt) spp = true) (accepted flags l).
Proof.
  induction l as [| spp rest IH]; intros qt flags qt'; cbn [insert_all].
  - intros [= <- <-]. cbn. repeat split; auto. intro x. lia.
  - destruct (QTreeInsert fuel qt spp) as [[b qt1] |] eqn:E1; [| discriminate].
    destruct (insert_all fuel qt1 rest) as [[bs qt2] |] eqn:E2; [| discriminate].
    intros [= <- <-]. apply QTreeInsert_effect in E1. apply IH in E2.
    destruct E1 as (B1 & T1 & C1 & K1). destruct E2 as (B2 & T2 & L2 & C2 & K2).
    split; [congruence |]. split; [auto |]. split; [cbn; congruence |].
    rewrite B1 in K2. split.
    + intro x. specialize (C1 x). specialize (C2 x).
      destruct b; cbn [accepted]; [| lia].
      change (spp :: accepted bs rest) with ([spp] ++ accepted bs rest).
      rewrite occurrences_app. lia.
    + destruct b; cbn [accepted]; [constructor; auto | exact K2].
Qed.



(** No pair is stored more often than its insertion was accepted, so
    nothing is stored that was not inserted; and every stored pair passed
    [BBoxContainsPoint] on the root box. *)
Theorem stored_within_accepted (fuel : nat) (bbox : BoundingBox)
        (l : list SpikePair) (flags : list bool) (qt : QuadTree) :
  insert_all fuel (QTreeCreate bbox) l = Some (flags, qt) ->
  (forall x, (occurrences x (stored qt) <= occurrences x (accepted flags l))%nat /\
             (occurrences x (accepted flags l) <= occurrences x l)%nat) /\
  Forall (fun spp => BBoxContainsPoint bbox spp = true) (stored qt).
Proof.
  intro E. apply insert_all_effect in E. destruct E as (_ & _ & _ & C & K).
  cbn [bdry QTreeCreate stored] in *.
  split.
  - intro x. split; [apply (C x) | apply occurrences_accepted].
  - apply Forall_forall. intros x Hx.
    rewrite Forall_forall in K. apply K.
    specialize (C x). change (occurrences x []) with 0%nat in C.
    apply (count_occ_In SpikePair_eq_dec) in Hx.
    apply (count_occ_In SpikePair_eq_dec). unfold occurrences in C. lia.
Qed.

Lemma stored_within_accepted_witness :
  exists flags qt,
    insert_all 3 (QTreeCreate (mkBBox 0 0 8))
               [pt 0 0; pt 1 1; pt 2 2; pt 3 3; pt 4 4; pt 9 9] = Some (flags, qt) /\
    Forall (fun spp => BBoxContainsPoint (mkBBox 0 0 8) spp = true) (stored qt).
Proof.
  eexists. eexists. split; [vm_compute; reflexivity |].
  refine (proj2 (stored_within_accepted 3 (mkBBox 0 0 8)
                  [pt 0 0; pt 1 1; pt 2 2; pt 3 3; pt 4 4; pt 9 9] _ _ _)).
  vm_compute. reflexivity.
Defined.

(** *** The query on the root box reaches every node *)

Lemma BBoxIntersects_nested (root bb : BoundingBox) :
  0 <= w2 bb ->
  Qabs (c_x bb - c_x root) + w2 bb <= w2 root ->
  Qabs (c_y bb - c_y root) + w2 bb <= w2 root ->
  BBoxIntersects bb root = true.
Proof.
  intros W Hx Hy. apply BBoxIntersects_iff.
  pose proof (truncated_distance_bounds (c_x root - c_x bb)) as [Tx _].
  pose proof (truncated_distance_bounds (c_y root - c_y bb)) as [Ty _].
  rewrite (Qabs_Qminus (c_x root)) in Tx. rewrite (Qabs_Qminus (c_y root)) in Ty.
  split; lra.
Qed.

Lemma Qabs_shift (a d r w : float) :
  0 <= d -> Qabs a + (d + d) <= w ->
  Qabs (a - d) + d <= w /\ Qabs (a + d) + d <= w.
Proof.
  intros D H.
  assert (Qabs (a - d) <= Qabs a + d /\ Qabs (a + d) <= Qabs a + d) as [H1 H2].
  { split; apply Qabs_Qle_condition;
      destruct (Qabs_Qle_condition a (Qabs a)) as [[L U] _];
      try apply Qle_refl; split; lra. }
  split; lra.
Qed.

Lemma visited_nested (root : BoundingBox) (qt : QuadTree) :
  tiled qt ->
  0 <= w2 (bdry qt) ->
  Qabs (c_x (bdry qt) - c_x root) + w2 (bdry qt) <= w2 root ->
  Qabs (c_y (bdry qt) - c_y root) + w2 (bdry qt) <= w2 root ->
  visited qt root = stored qt.
Proof.
  induction qt as [cap bb ps | cap bb ps nw IHnw sw IHsw ne IHne se IHse];
    cbn [bdry]; intros T W Hx Hy.
  - rewrite visited_Leaf, (BBoxIntersects_nested root bb W Hx Hy). reflexivity.
  - rewrite visited_Quad, (BBoxIntersects_nested root bb W Hx Hy). cbn [stored].
    cbn [tiled] in T. cbv zeta in T.
    destruct T as (Bnw & Bsw & Bne & Bse & Tnw & Tsw & Tne & Tse).
    assert (0 <= w2 bb / 2) as D by (apply Qle_shift_div_l; [reflexivity | lra]).
    assert (w2 bb / 2 + w2 bb / 2 == w2 bb) as S2 by field.
    assert (Qabs (c_x bb - c_x root) + (w2 bb / 2 + w2 bb / 2) <= w2 root) as Hx'
        by (rewrite S2; exact Hx).
    assert (Qabs (c_y bb - c_y root) + (w2 bb / 2 + w2 bb / 2) <= w2 root) as Hy'
        by (rewrite S2; exact Hy).
    destruct (Qabs_shift _ _ (w2 root) (w2 root) D Hx') as [Xm Xp].
    destruct (Qabs_shift _ _ (w2 root) (w2 root) D Hy') as [Ym Yp].
    assert (forall a d r, Qabs (a - r - d) + d <= w2 root ->
                          Qabs (a - d - r) + d <= w2 root) as Em.
    { intros a d r H. setoid_replace (a - d - r) with (a - r - d) by ring. exact H. }
    assert (forall a d r, Qabs (a - r + d) + d <= w2 root ->
                          Qabs (a + d - r) + d <= w2 root) as Ep.
    { intros a d r H. setoid_replace (a + d - r) with (a - r + d) by ring. exact H. }
    rewrite IHnw, IHsw, IHne, IHse; try reflexivity; try assumption.
    all: rewrite ?Bnw, ?Bsw, ?Bne, ?Bse; cbn [BBoxCreate c_x c_y w2]; try exact D.
    all: match goal with
         | |- Qabs (?a + ?d - ?r) + _ <= _ => apply (Ep a d r); assumption
         | |- Qabs (?a - ?d - ?r) + _ <= _ => apply (Em a d r); assumption
         end.
Qed.

Lemma insert_all_refused (fuel : nat) (l : list SpikePair) :
  forall (qt : QuadTree) (flags : list bool) (qt' : QuadTree),
    w2 (bdry qt) < 0 ->
    insert_all fuel qt l = Some (flags, qt') -> qt' = qt.
Proof.
  induction l as [| spp rest IH]; intros qt flags qt' W; cbn [insert_all].
  - intros [= _ <-]. reflexivity.
  - destruct fuel as [| fuel]; [discriminate |]. rewrite QTreeInsert_S.
    assert (BBoxContainsPoint (bdry qt) spp = false) as ->.
    { destruct (BBoxContainsPoint (bdry qt) spp) eqn:B; [exfalso | reflexivity].
      apply BBoxContainsPoint_iff in B. destruct B as [Bx _].
      pose proof (truncated_distance_nonneg
                    (float_of_long (ts (sp1 spp)) - c_x (bdry qt))). lra. }
    cbn [negb]. destruct (insert_all (S fuel) qt rest) as [[bs qt2] |] eqn:E2;
      [| discriminate].
    intros [= _ <-]. apply (IH qt bs qt2 W E2).
Qed.



(** ** What subdivision keeps *)

Lemma QTreeInsert_roomy (fuel : nat) (bb : BoundingBox) (n : nat)
      (qt : QuadTree) (spp : SpikePair) :
  roomy bb (S n) qt ->
  exists qt',
    QTreeInsert (S fuel) qt spp = Some (BBoxContainsPoint bb spp, qt') /\
    roomy bb n qt' /\
    forall x, occurrences x (stored qt')
              = (occurrences x (stored qt)
                 + (if BBoxContainsPoint bb spp then occurrences x [spp] else 0))%nat.
Proof.
  destruct qt as [cap b ps |]; [| intros []].
  intros (-> & C & L). rewrite QTreeInsert_leaf by (unfold QT_MAX_CAP; lia).
  destruct (BBoxContainsPoint bb spp).
  - eexists. split; [reflexivity |]. split.
    + cbn. rewrite length_app. cbn [length]. repeat split; lia.
    + intro x. cbn [stored]. apply occurrences_app.
  - eexists. split; [reflexivity |]. split.
    + cbn. repeat split; lia.
    + intro x. lia.
Qed.

Lemma insert_into_children_roomy (fuel : nat) (b1 b2 b3 b4 : BoundingBox)
      (n : nat) (nw sw ne se : QuadTree) (spp : SpikePair) :
  roomy b1 (S n) nw -> roomy b2 (S n) sw -> roomy b3 (S n) ne -> roomy b4 (S n) se ->
  exists nw' sw' ne' se',
    insert_into_children (QTreeInsert (S fuel)) (nw, sw, ne, se) spp
    = Some (covered_by [b1; b2; b3; b4] spp, (nw', sw', ne', se')) /\
    (roomy b1 n nw' /\ roomy b2 n sw' /\ roomy b3 n ne' /\ roomy b4 n se') /\
    forall x, occurrences x (stored4 (nw', sw', ne', se'))
              = (occurrences x (stored4 (nw, sw, ne, se))
                 + (if covered_by [b1; b2; b3; b4] spp
                    then occurrences x [spp] else 0))%nat.
Proof.
  intros R1 R2 R3 R4.
  assert (forall b q, roomy b (S n) q -> roomy b n q) as Hweak.
  { intros b [cap bq ps |]; [| intros []]. cbn. intuition lia. }
  destruct (QTreeInsert_roomy fuel b1 n nw spp R1) as (nw' & E1 & R1' & C1).
  destruct (QTreeInsert_roomy fuel b2 n sw spp R2) as (sw' & E2 & R2' & C2).
  destruct (QTreeInsert_roomy fuel b3 n ne spp R3) as (ne' & E3 & R3' & C3).
  destruct (QTreeInsert_roomy fuel b4 n se spp R4) as (se' & E4 & R4' & C4).
  unfold insert_into_children, covered_by. cbn [existsb]. rewrite E1.
  destruct (BBoxContainsPoint b1 spp).
  { exists nw', sw, ne, se. split; [reflexivity |]. split; [auto 6 |].
    intro x. unfold stored4. cbn [orb]. rewrite !occurrences_app, (C1 x). lia. }
  rewrite E2. destruct (BBoxContainsPoint b2 spp).
  { exists nw', sw', ne, se. split; [reflexivity |]. split; [auto 6 |].
    intro x. unfold stored4. cbn [orb]. rewrite !occurrences_app, (C1 x), (C2 x). lia. }
  rewrite E3. destruct (BBoxContainsPoint b3 spp).
  { exists nw', sw', ne', se. split; [reflexivity |]. split; [auto 6 |].
    intro x. unfold stored4. cbn [orb].
    rewrite !occurrences_app, (C1 x), (C2 x), (C3 x). lia. }
  rewrite E4. exists nw', sw', ne', se'. cbn [orb].
  rewrite orb_false_r. split; [reflexivity |]. split; [auto |].
  intro x. unfold stored4.
  rewrite !occurrences_app, (C1 x), (C2 x), (C3 x), (C4 x).
  destruct (BBoxContainsPoint b4 spp); lia.
Qed.

Lemma occurrences_filter_cons (x spp : SpikePair) (f : SpikePair -> bool)
      (l : list SpikePair) :
  occurrences x (filter f (spp :: l))
  = ((if f spp then occurrences x [spp] else 0) + occurrences x (filter f l))%nat.
Proof.
  cbn [filter]. destruct (f spp); [| reflexivity].
  change (spp :: filter f l) with ([spp] ++ filter f l). apply occurrences_app.
Qed.

Lemma drain_roomy (fuel : nat) (b1 b2 b3 b4 : BoundingBox) (ps : list SpikePair) :
  forall nw sw ne se : QuadTree,
    roomy b1 (length ps) nw -> roomy b2 (length ps) sw ->
    roomy b3 (length ps) ne -> roomy b4 (length ps) se ->
    exists nw' sw' ne' se',
      drain (QTreeInsert (S fuel)) (Z.of_nat (length ps)) ps (nw, sw, ne, se)
      = Some (0%Z, [], (nw', sw', ne', se')) /\
      forall x, occurrences x (stored4 (nw', sw', ne', se'))
                = (occurrences x (stored4 (nw, sw, ne, se))
                   + occurrences x (filter (covered_by [b1; b2; b3; b4]) ps))%nat.
Proof.
  induction ps as [| spp rest IH]; intros nw sw ne se R1 R2 R3 R4.
  - exists nw, sw, ne, se. split; [reflexivity |]. intro x. cbn. lia.
  - cbn [length] in *.
    destruct (insert_into_children_roomy fuel b1 b2 b3 b4 (length rest)
                nw sw ne se spp R1 R2 R3 R4)
      as (nw1 & sw1 & ne1 & se1 & E1 & (Q1 & Q2 & Q3 & Q4) & C1).
    destruct (IH nw1 sw1 ne1 se1 Q1 Q2 Q3 Q4) as (nw' & sw' & ne' & se' & E2 & C2).
    exists nw', sw', ne', se'. split.
    + cbn [drain]. rewrite E1.
      replace (Z.of_nat (S (length rest)) - 1)%Z with (Z.of_nat (length rest)) by lia.
      destruct (Z.ltb_spec 0 (Z.of_nat (S (length rest)))) as [_ | Hle];
        [exact E2 | lia].
    + intro x. rewrite (C2 x), (C1 x), occurrences_filter_cons. lia.
Qed.



(** ** The round trip without subdivision *)

Lemma insert_all_leaf (fuel : nat) (bbox : BoundingBox) (l : list SpikePair) :
  forall (cap : Z) (ps : list SpikePair),
    cap = Z.of_nat (length ps) ->
    (length ps + length l <= 4)%nat ->
    Forall (fun spp => BBoxContainsPoint bbox spp = true) l ->
    insert_all (S fuel) (Leaf cap bbox ps) l
    = Some (repeat true (length l),
            Leaf (cap + Z.of_nat (length l)) bbox (ps ++ l)).
Proof.
  induction l as [| spp rest IH]; intros cap ps C L F.
  - cbn. rewrite Z.add_0_r, app_nil_r. reflexivity.
  - cbn [length] in L. inversion F as [| ? ? Hc Fr]; subst.
    cbn [insert_all]. rewrite QTreeInsert_leaf, Hc by (unfold QT_MAX_CAP; lia).
    rewrite (IH (Z.of_nat (length ps) + 1)%Z (ps ++ [spp]));
      [| rewrite length_app; cbn; lia | rewrite length_app; cbn; lia | exact Fr].
    cbn [length repeat]. rewrite <- app_assoc. cbn [app].
    do 3 f_equal. lia.
Qed.

(** Up to [QT_MAX_CAP] pairs that the root box contains are all accepted,
    they stay in the root leaf, and the query on the root box visits exactly
    them, in insertion order. *)
Theorem round_trip_without_subdivision (fuel : nat) (bbox : BoundingBox)
        (l : list SpikePair) :
  (length l <= 4)%nat ->
  Forall (fun spp => BBoxContainsPoint bbox spp = true) l ->
  exists qt,
    insert_all (S fuel) (QTreeCreate bbox) l = Some (repeat true (length l), qt) /\
    visited qt bbox = l.
Proof.
  intros L F. eexists. split.
  - apply (insert_all_leaf fuel bbox l 0 []); [reflexivity | exact L | exact F].
  - cbn [app]. rewrite visited_Leaf.
    destruct l as [| spp rest]; [destruct (BBoxIntersects bbox bbox); reflexivity |].
    inversion F as [| ? ? Hc _]; subst.
    apply BBoxContainsPoint_iff in Hc. destruct Hc as [Hx _].
    pose proof (truncated_distance_nonneg (float_of_long (ts (sp1 spp)) - c_x bbox)).
    rewrite (BBoxIntersects_nested bbox bbox); [reflexivity | lra | |];
      assert (forall c, Qabs (c - c) <= 0) as H0
        by (intro c; apply Qabs_Qle_condition; split; lra);
      [specialize (H0 (c_x bbox)) | specialize (H0 (c_y bbox))]; lra.
Qed.

Lemma round_trip_without_subdivision_witness :
  exists qt,
    insert_all 1 (QTreeCreate (mkBBox 20.5 20.5 10.5)) [pt 10 20; pt 10 30; pt 20 30]
    = Some ([true; true; true], qt) /\
    visited qt (mkBBox 20.5 20.5 10.5) = [pt 10 20; pt 10 30; pt 20 30].
Proof.
  apply (round_trip_without_subdivision 0 (mkBBox 20.5 20.5 10.5)
           [pt 10 20; pt 10 30; pt 20 30]).
  - cbn. lia.
  - repeat constructor.
Defined.

(** ** The edge buffer *)

Lemma finalize_GNAT_add_edge (pre post : SpikePair) (r : float) (eb : EdgeBuffer) :
  finalize_edge_buffer (GNAT_add_edge pre post r eb)
  = finalize_edge_buffer eb ++ [fprint_GNAT_edge (mkGNATEdge pre post r)].
Proof.
  unfold finalize_edge_buffer, GNAT_add_edge, flush_edge_buffer.
  destruct (N_EDGBUF <=? edgbuf_sz eb)%Z; cbn [g_edgbuf fp_edgbuf map];
    rewrite ?map_app, ?app_nil_r, <- ?app_assoc; reflexivity.
Qed.

Lemma finalize_add_edges (es : list GNATEdge) :
  forall eb, finalize_edge_buffer (fold_left add_edge es eb)
             = finalize_edge_buffer eb ++ map fprint_GNAT_edge es.
Proof.
  induction es as [| e es IH]; intro eb; cbn [fold_left map].
  - symmetry. apply app_nil_r.
  - rewrite IH. unfold add_edge. rewrite finalize_GNAT_add_edge.
    rewrite <- app_assoc. destruct e. reflexivity.
Qed.

(** Whatever the number of edges and of flushes in between, the file holds
    one line per edge added since [initialize_edge_buffer], in the order of
    the additions. *)
Theorem edge_buffer_writes_every_edge_in_order (es : list GNATEdge) :
  finalize_edge_buffer (fold_left add_edge es initialize_edge_buffer)
  = map fprint_GNAT_edge es.
Proof. rewrite finalize_add_edges. reflexivity. Qed.

(** After [GNAT_add_edge] the buffer holds at least one edge and at most
    [N_EDGBUF], whatever it held before: the slot written is inside the
    array.  It flushes exactly when it finds the buffer full. *)
Theorem GNAT_add_edge_stays_within_buffer (pre post : SpikePair) (r : float)
        (eb : EdgeBuffer) :
  let eb' := GNAT_add_edge pre post r eb in
  (1 <= edgbuf_sz eb' <= N_EDGBUF)%Z /\
  ((edgbuf_sz eb < N_EDGBUF)%Z ->
   fp_edgbuf eb' = fp_edgbuf eb /\ edgbuf_sz eb' = (edgbuf_sz eb + 1)%Z) /\
  ((N_EDGBUF <= edgbuf_sz eb)%Z ->
   fp_edgbuf eb' = fp_edgbuf eb ++ map fprint_GNAT_edge (g_edgbuf eb) /\
   edgbuf_sz eb' = 1%Z).
Proof.
  cbv zeta. unfold GNAT_add_edge, flush_edge_buffer.
  destruct (Z.leb_spec N_EDGBUF (edgbuf_sz eb)) as [Full | Room];
    unfold edgbuf_sz in *; cbn [g_edgbuf fp_edgbuf]; rewrite ?length_app;
      cbn [length app]; unfold N_EDGBUF in *.
  - split; [lia |]. split; [lia | intros _; split; reflexivity].
  - split; [lia |]. split; [intros _; split; [reflexivity | lia] | lia].
Qed.

(** ** The traversal that tests and emits *)

Lemma QTreeMapQueryRange_fold {S : Type} (r : BoundingBox)
      (func : SpikePair -> S -> S) (qt : QuadTree) :
  forall s, QTreeMapQueryRange qt r func s
            = fold_left (fun acc spp => func spp acc) (visited qt r) s.
Proof.
  induction qt as [cap bb ps | cap bb ps nw IHnw sw IHsw ne IHne se IHse]; intro s.
  - rewrite visited_Leaf. cbn [QTreeMapQueryRange bdry].
    destruct (BBoxIntersects bb r); reflexivity.
  - rewrite visited_Quad. cbn [QTreeMapQueryRange bdry].
    destruct (BBoxIntersects bb r); cbn [negb]; [| reflexivity]. cbv zeta.
    rewrite !fold_left_app, IHse, IHne, IHsw, IHnw. reflexivity.
Qed.

Lemma QTreeMapGNATEdge_as_query (r : BoundingBox) (spp_post : SpikePair)
      (syn : Synapse) (tau theta : float) (qt : QuadTree) :
  forall eb, QTreeMapGNATEdge qt r spp_post syn tau theta eb
             = QTreeMapQueryRange qt r (edge_visitor spp_post syn tau theta) eb.
Proof.
  induction qt as [cap bb ps | cap bb ps nw IHnw sw IHsw ne IHne se IHse]; intro eb;
    cbn [QTreeMapGNATEdge QTreeMapQueryRange bdry];
    destruct (BBoxIntersects bb r); cbn [negb]; try reflexivity.
  cbv zeta. rewrite IHnw, IHsw, IHne, IHse. reflexivity.
Qed.

Lemma fold_edge_visitor (spp_post : SpikePair) (syn : Synapse) (tau theta : float)
      (l : list SpikePair) :
  forall eb,
    fold_left (fun acc spp => edge_visitor spp_post syn tau theta spp acc) l eb
    = fold_left add_edge
                (map (fun spp_pre => mkGNATEdge spp_pre spp_post 1)
                     (filter (fun spp_pre =>
                                GNAT_test_for_edge spp_pre spp_post syn tau theta) l))
                eb.
Proof.
  induction l as [| p l IH]; intro eb; cbn [fold_left filter]; [reflexivity |].
  rewrite IH. unfold edge_visitor.
  destruct (GNAT_test_for_edge p spp_post syn tau theta); reflexivity.
Qed.

Lemma QTreeMapGNATEdge_adds (qt : QuadTree) (r : BoundingBox) (spp_post : SpikePair)
      (syn : Synapse) (tau theta : float) (eb : EdgeBuffer) :
  QTreeMapGNATEdge qt r spp_post syn tau theta eb
  = fold_left add_edge (edges_of_query qt r spp_post syn tau theta) eb.
Proof.
  rewrite QTreeMapGNATEdge_as_query, QTreeMapQueryRange_fold.
  apply fold_edge_visitor.
Qed.

(** [QTreeMapGNATEdge] is [QTreeMapQueryRange] run with the visitor that
    tests the pre pair and adds the edge; the lines it adds to the file are
    those of the visited pre pairs that pass [GNAT_test_for_edge], in visit
    order, each paired with [spp_post]. *)
Theorem QTreeMapGNATEdge_emits_tested_visits (qt : QuadTree) (r : BoundingBox)
        (spp_post : SpikePair) (syn : Synapse) (tau theta : float)
        (eb : EdgeBuffer) :
  QTreeMapGNATEdge qt r spp_post syn tau theta eb
  = QTreeMapQueryRange qt r (edge_visitor spp_post syn tau theta) eb /\
  finalize_edge_buffer (QTreeMapGNATEdge qt r spp_post syn tau theta eb)
  = finalize_edge_buffer eb
    ++ map fprint_GNAT_edge (edges_of_query qt r spp_post syn tau theta).
Proof.
  split; [apply QTreeMapGNATEdge_as_query |].
  rewrite QTreeMapGNATEdge_adds. apply finalize_add_edges.
Qed.

(** ** The raster *)

Lemma array_update_length {A : Type} (f : A -> A) (a : list A) :
  forall i, length (array_update a i f) = length a.
Proof.
  induction a as [| x a IH]; intros [| i]; cbn; try reflexivity.
  rewrite IH. reflexivity.
Qed.

Lemma nth_array_update {A : Type} (f : A -> A) (d : A) (a : list A) :
  forall i j,
    nth i (array_update a j f) d
    = if (i =? j)%nat && (j <? length a)%nat then f (nth i a d) else nth i a d.
Proof.
  induction a as [| x a IH]; intros i j.
  - cbn. rewrite andb_false_r. reflexivity.
  - destruct j as [| j], i as [| i]; cbn [array_update nth]; try reflexivity.
    rewrite IH. reflexivity.
Qed.

Lemma create_spike_n_id_nonneg (id t : Z) : (0 <= n_id (create_spike id t))%Z.
Proof. cbn. apply Z.mod_pos_bound. reflexivity. Qed.

(** The lists while the file is read: each spike is pushed on the head of
    the list of its neuron. *)
Lemma RasterAppendLines_lists (lines : list (Z * Z * Z)) :
  forall sr sr',
    length (sp_lists sr) = Z.to_nat (n_cells sr) ->
    RasterAppendLines sr lines = Some sr' ->
    n_cells sr' = n_cells sr /\
    length (sp_lists sr') = Z.to_nat (n_cells sr') /\
    Forall (fun sp => (n_id sp < n_cells sr)%Z) (spikes_of_lines lines) /\
    forall i, nth i (sp_lists sr') []
              = rev (spikes_of_neuron i (spikes_of_lines lines))
                ++ nth i (sp_lists sr) [].
Proof.
  induction lines as [| [[ty t] id] rest IH]; intros sr sr' L; cbn [RasterAppendLines].
  - intros [= <-]. split; [reflexivity |]. split; [exact L |].
    split; [constructor | intro i; reflexivity].
  - change (spikes_of_lines ((ty, t, id) :: rest))
      with (create_spike id t :: spikes_of_lines rest).
    pose proof (create_spike_n_id_nonneg id t) as Hpos.
    generalize dependent (create_spike id t). intros sp Hpos.
    unfold RasterHeadAppend.
    destruct (Z.leb_spec (n_cells sr) (n_id sp)) as [| Hlt]; [discriminate |].
    destruct (if (n_spikes sr =? 0)%Z then _ else _) as [tmin tmax].
    intro E2. apply IH in E2;
      [| cbn [sp_lists n_cells]; rewrite array_update_length; exact L].
    cbn [sp_lists n_cells] in E2. destruct E2 as (N & L' & F & H).
    split; [exact N |]. split; [exact L' |].
    split; [constructor; assumption |].
    intro i. rewrite H, nth_array_update.
    unfold spikes_of_neuron. cbn [filter].
    destruct (Z.eqb_spec (n_id sp) (Z.of_nat i)) as [Ei | Ni].
    + assert (i = Z.to_nat (n_id sp)) as Hi by lia.
      rewrite <- Hi, Nat.eqb_refl. cbn [andb rev].
      destruct (Nat.ltb_spec i (length (sp_lists sr))) as [_ | Hge]; [| lia].
      rewrite <- app_assoc. reflexivity.
    + destruct (Nat.eqb_spec i (Z.to_nat (n_id sp))) as [Hi | _];
        [lia | reflexivity].
Qed.

(** [RasterReadFile] on a fresh raster leaves, for every neuron, the spikes
    of that neuron in file order (the head insertions are undone by the
    final reversal), and every spike it read has an id below [n_cells]. *)
Theorem RasterReadFile_keeps_file_order (_n_cells : Z) (lines : list (Z * Z * Z))
        (sr : SpikeRaster) :
  RasterReadFile (RasterInit _n_cells) lines = Some sr ->
  n_cells sr = _n_cells /\
  length (sp_lists sr) = Z.to_nat _n_cells /\
  Forall (fun sp => (0 <= n_id sp < _n_cells)%Z) (spikes_of_lines lines) /\
  forall i, nth i (sp_lists sr) [] = spikes_of_neuron i (spikes_of_lines lines).
Proof.
  unfold RasterReadFile.
  destruct (RasterAppendLines (RasterInit _n_cells) lines) as [sr1 |] eqn:E;
    [| discriminate].
  intros [= <-]. apply RasterAppendLines_lists in E;
    [| cbn; apply repeat_length].
  cbn [n_cells sp_lists RasterInit RasterReverse] in *.
  destruct E as (N & L & F & H).
  split; [exact N |]. split; [rewrite length_map, L, N; reflexivity |]. split.
  - rewrite Forall_forall in *. intros sp Hsp. split; [| apply F, Hsp].
    unfold spikes_of_lines in Hsp. apply in_map_iff in Hsp.
    destruct Hsp as ([[ty t] id] & <- & _). apply create_spike_n_id_nonneg.
  - intro i.
    assert (nth i (map SpikeListReverse (sp_lists sr1)) []
            = SpikeListReverse (nth i (sp_lists sr1) [])) as ->.
    { change [] with (SpikeListReverse []) at 1. apply map_nth. }
    rewrite H. unfold SpikeListReverse. rewrite rev_append_rev, app_nil_r.
    assert (nth i (repeat (@nil Spike) (Z.to_nat _n_cells)) [] = []) as ->.
    { clear. generalize (Z.to_nat _n_cells). intro n. revert i.
      induction n as [| n IH]; intros [| i]; cbn; auto. }
    rewrite app_nil_r. apply rev_involutive.
Qed.

Lemma RasterReadFile_keeps_file_order_witness :
  exists sr,
    RasterReadFile (RasterInit 2) scenario_D_spikes = Some sr /\
    nth 1 (sp_lists sr) [] = [mkSpike 1 11; mkSpike 1 21; mkSpike 1 31].
Proof.
  eexists. split; [vm_compute; reflexivity |].
  refine (proj2 (proj2 (proj2 (RasterReadFile_keeps_file_order
                                 2 scenario_D_spikes _ _))) 1%nat).
  vm_compute. reflexivity.
Defined.


Lemma RasterHeadAppend_extremes (sr sr' : SpikeRaster) (sp : Spike) (seen : list Z) :
  tracks_extremes sr seen ->
  RasterHeadAppend sr sp = Some sr' ->
  tracks_extremes sr' (ts sp :: seen).
Proof.
  intros [Hn Hx]. unfold RasterHeadAppend.
  destruct (n_cells sr <=? n_id sp)%Z; [discriminate |].
  destruct (Z.eqb_spec (n_spikes sr) 0) as [E0 | N0].
  - intros [= <-]. split; cbn [n_spikes t_min t_max length]; [lia |].
    intros _. assert (seen = []) as -> by (destruct seen; [reflexivity | cbn in Hn; lia]).
    split; [left; reflexivity |]. split; [left; reflexivity |].
    constructor; [lia | constructor].
  - intros [= <-]. split; cbn [n_spikes t_min t_max length]; [lia |].
    intros _. destruct Hx as (Imin & Imax & F).
    { intros ->. cbn in Hn. lia. }
    destruct (Z.ltb_spec 0 (ts sp - t_min sr)) as [A | A];
      destruct (Z.ltb_spec (ts sp - t_max sr) 0) as [B | B];
      rewrite ?Z.add_0_r;
      replace (t_min sr + (ts sp - t_min sr))%Z with (ts sp) by lia;
      replace (t_max sr + (ts sp - t_max sr))%Z with (ts sp) by lia;
      (split; [cbn; auto |]); (split; [cbn; auto |]);
      (constructor; [lia |]); revert F; apply Forall_impl; intros; lia.
Qed.

Lemma RasterAppendLines_extremes (lines : list (Z * Z * Z)) :
  forall sr sr' seen,
    tracks_extremes sr seen ->
    RasterAppendLines sr lines = Some sr' ->
    tracks_extremes sr' (rev (map ts (spikes_of_lines lines)) ++ seen).
Proof.
  induction lines as [| [[ty t] id] rest IH]; intros sr sr' seen I;
    cbn [RasterAppendLines].
  - intros [= <-]. exact I.
  - destruct (RasterHeadAppend sr (create_spike id t)) as [sr1 |] eqn:E1;
      [| discriminate].
    intro E2. apply (RasterHeadAppend_extremes _ _ _ _ I) in E1.
    apply (IH _ _ _ E1) in E2. cbn [spikes_of_lines map rev ts create_spike] in *.
    rewrite <- app_assoc. exact E2.
Qed.

(** After the reading, [n_spikes] counts the lines, and (when there is at
    least one line) [t_min] and [t_max] are the least and the greatest
    timestamp read; on an empty file they stay 0. *)
Theorem RasterReadFile_tracks_extremes (_n_cells : Z) (lines : list (Z * Z * Z))
        (sr : SpikeRaster) :
  RasterReadFile (RasterInit _n_cells) lines = Some sr ->
  let stamps := map ts (spikes_of_lines lines) in
  n_spikes sr = Z.of_nat (length lines) /\
  (lines = [] -> t_min sr = 0%Z /\ t_max sr = 0%Z) /\
  (lines <> [] ->
   In (t_min sr) stamps /\ In (t_max sr) stamps /\
   Forall (fun t => (t_min sr <= t <= t_max sr)%Z) stamps).
Proof.
  unfold RasterReadFile.
  destruct (RasterAppendLines (RasterInit _n_cells) lines) as [sr1 |] eqn:E;
    [| discriminate].
  intros [= <-]. cbv zeta. cbn [RasterReverse n_spikes t_min t_max].
  split; [| split].
  - apply (RasterAppendLines_extremes lines _ _ []) in E.
    + destruct E as [Hn _]. unfold spikes_of_lines in Hn.
      rewrite Hn, app_nil_r, length_rev, !length_map. reflexivity.
    + split; [reflexivity | intro H; contradiction H; reflexivity].
  - intros ->. cbn in E. injection E as <-. split; reflexivity.
  - intro Hne. apply (RasterAppendLines_extremes lines _ _ []) in E.
    + rewrite app_nil_r in E. destruct E as [_ Hx].
      destruct Hx as (Imin & Imax & F).
      { destruct lines as [| [[ty t] id] rest]; [contradiction Hne; reflexivity |].
        cbn. intro H. apply app_eq_nil in H. destruct H as [_ H]. discriminate H. }
      split; [apply in_rev, Imin |]. split; [apply in_rev, Imax |].
      apply Forall_rev in F. rewrite rev_involutive in F. exact F.
    + split; [reflexivity | intro H; contradiction H; reflexivity].
Qed.

Lemma RasterReadFile_tracks_extremes_witness :
  n_spikes scenario_D_raster = Z.of_nat (length scenario_D_spikes) /\
  (scenario_D_spikes = [] ->
   t_min scenario_D_raster = 0%Z /\ t_max scenario_D_raster = 0%Z) /\
  (scenario_D_spikes <> [] ->
   In (t_min scenario_D_raster) (map ts (spikes_of_lines scenario_D_spikes)) /\
   In (t_max scenario_D_raster) (map ts (spikes_of_lines scenario_D_spikes)) /\
   Forall (fun t => (t_min scenario_D_raster <= t <= t_max scenario_D_raster)%Z)
          (map ts (spikes_of_lines scenario_D_spikes))).
Proof.
  apply (RasterReadFile_tracks_extremes 2 scenario_D_spikes scenario_D_raster).
  vm_compute. reflexivity.
Defined.

(** ** The network *)

Lemma SynapseCreate_tgt_id_nonneg (log : float -> float) (s t : Z) (w d : float) :
  (0 <= tgt_id (SynapseCreate log s t w d))%Z.
Proof. cbn. apply Z.mod_pos_bound. reflexivity. Qed.

Lemma PhysNetworkReadFile_lists (log : float -> float)
      (lines : list (Z * Z * float * float)) :
  forall pn pn',
    length (presyns pn) = Z.to_nat (pn_n_cells pn) ->
    PhysNetworkReadFile log pn lines = Some pn' ->
    pn_n_cells pn' = pn_n_cells pn /\
    length (presyns pn') = Z.to_nat (pn_n_cells pn') /\
    Forall (fun syn => (tgt_id syn < pn_n_cells pn)%Z) (synapses_of_lines log lines) /\
    forall v, nth v (presyns pn') []
              = rev (synapses_onto v (synapses_of_lines log lines))
                ++ nth v (presyns pn) [].
Proof.
  induction lines as [| [[[s t] w] d] rest IH]; intros pn pn' L;
    cbn [PhysNetworkReadFile].
  - intros [= <-]. split; [reflexivity |]. split; [exact L |].
    split; [constructor | intro v; reflexivity].
  - unfold PhysNetworkAddSynapse.
    destruct (Z.leb_spec (pn_n_cells pn) (tgt_id (SynapseCreate log s t w d)))
      as [| Hlt]; [discriminate |].
    intro E2. apply IH in E2;
      [| cbn [presyns pn_n_cells]; rewrite array_update_length; exact L].
    cbn [presyns pn_n_cells] in E2. destruct E2 as (N & L' & F & H).
    split; [exact N |]. split; [exact L' |].
    split; [constructor; assumption |].
    intro v. rewrite H, nth_array_update.
    unfold synapses_onto, synapses_of_lines. cbn [map filter].
    pose proof (SynapseCreate_tgt_id_nonneg log s t w d) as Hpos.
    destruct (Z.eqb_spec (tgt_id (SynapseCreate log s t w d)) (Z.of_nat v))
      as [Ei | Ni].
    + assert (v = Z.to_nat (tgt_id (SynapseCreate log s t w d))) as -> by lia.
      rewrite Nat.eqb_refl. cbn [andb rev].
      destruct (Nat.ltb_spec (Z.to_nat (tgt_id (SynapseCreate log s t w d)))
                             (length (presyns pn))) as [_ | Hge]; [| lia].
      rewrite <- app_assoc. reflexivity.
    + destruct (Nat.eqb_spec v (Z.to_nat (tgt_id (SynapseCreate log s t w d))))
        as [-> | _]; [lia | reflexivity].
Qed.

Lemma nth_repeat_nil {A : Type} (n i : nat) : nth i (repeat (@nil A) n) [] = [].
Proof. revert i. induction n as [| n IH]; intros [| i]; cbn; auto. Qed.

(** [PhysNetworkReadFile] on a fresh network files every synapse under its
    target: the list of neuron [v] holds the synapses onto [v], the last
    read first, and nothing else. *)
Theorem PhysNetworkReadFile_files_by_target (log : float -> float) (_n_cells : Z)
        (lines : list (Z * Z * float * float)) (pn : PhysNetwork) :
  PhysNetworkReadFile log (PhysNetworkInit _n_cells) lines = Some pn ->
  pn_n_cells pn = _n_cells /\
  length (presyns pn) = Z.to_nat _n_cells /\
  (forall v, nth v (presyns pn) []
             = rev (synapses_onto v (synapses_of_lines log lines))) /\
  (forall v syn, In syn (nth v (presyns pn) []) ->
                 tgt_id syn = Z.of_nat v /\ In syn (synapses_of_lines log lines)).
Proof.
  intro E. apply PhysNetworkReadFile_lists in E; [| cbn; apply repeat_length].
  cbn [pn_n_cells presyns PhysNetworkInit] in E. destruct E as (N & L & _ & H).
  assert (forall v, nth v (presyns pn) []
                    = rev (synapses_onto v (synapses_of_lines log lines))) as H'.
  { intro v. rewrite H, nth_repeat_nil, app_nil_r. reflexivity. }
  split; [exact N |]. split; [rewrite L, N; reflexivity |]. split; [exact H' |].
  intros v syn Hin. rewrite H' in Hin. apply in_rev in Hin.
  unfold synapses_onto in Hin. apply filter_In in Hin. destruct Hin as [Hin Ht].
  split; [apply Z.eqb_eq, Ht | exact Hin].
Qed.

Lemma PhysNetworkReadFile_files_by_target_witness :
  exists pn,
    PhysNetworkReadFile (fun _ => 0) (PhysNetworkInit 2) scenario_D_network = Some pn /\
    nth 1 (presyns pn) [] = [mkSynapse 0 1 1 (-1 * 0) 1].
Proof.
  eexists. split; [vm_compute; reflexivity |].
  refine (proj1 (proj2 (proj2 (PhysNetworkReadFile_files_by_target
                                 (fun _ => 0) 2 scenario_D_network _ _))) 1%nat).
  vm_compute. reflexivity.
Defined.

(** A line whose target id is not below [n_cells] is fatal: a file that
    holds one is not read to its end. *)
Theorem PhysNetworkReadFile_rejects_foreign_target (log : float -> float)
        (_n_cells : Z) (lines : list (Z * Z * float * float)) :
  Exists (fun syn => (_n_cells <= tgt_id syn)%Z) (synapses_of_lines log lines) ->
  PhysNetworkReadFile log (PhysNetworkInit _n_cells) lines = None.
Proof.
  intro Hex.
  destruct (PhysNetworkReadFile log (PhysNetworkInit _n_cells) lines) as [pn |] eqn:E;
    [exfalso | reflexivity].
  apply PhysNetworkReadFile_lists in E; [| cbn; apply repeat_length].
  destruct E as (_ & _ & F & _). cbn [pn_n_cells PhysNetworkInit] in F.
  apply Exists_exists in Hex. destruct Hex as (syn & Hin & Hge).
  rewrite Forall_forall in F. specialize (F syn Hin). lia.
Qed.

Lemma PhysNetworkReadFile_rejects_foreign_target_witness :
  PhysNetworkReadFile (fun _ => 0) (PhysNetworkInit 2) [(0%Z, 1%Z, 1, 1); (1%Z, 2%Z, 1, 1)]
  = None.
Proof.
  apply (PhysNetworkReadFile_rejects_foreign_target (fun _ => 0) 2).
  vm_compute. right. left. discriminate.
Defined.

(** ** The orchestrator *)

Lemma insert_all_app (fuel : nat) (l1 l2 : list SpikePair) :
  forall qt,
    insert_all fuel qt (l1 ++ l2)
    = match insert_all fuel qt l1 with
      | None => None
      | Some (f1, qt1) =>
        match insert_all fuel qt1 l2 with
        | None => None
        | Some (f2, qt2) => Some (f1 ++ f2, qt2)
        end
      end.
Proof.
  induction l1 as [| spp l1 IH]; intro qt; cbn [app insert_all].
  - destruct (insert_all fuel qt l2) as [[f2 qt2] |]; reflexivity.
  - destruct (QTreeInsert fuel qt spp) as [[b qt1] |]; [| reflexivity].
    rewrite IH. destruct (insert_all fuel qt1 l1) as [[f1 qt2] |]; [| reflexivity].
    destruct (insert_all fuel qt2 l2) as [[f2 qt3] |]; reflexivity.
Qed.

Lemma insert_pairs_from_spec (fuel : nat) (sp_a : Spike) (followers : list Spike) :
  forall qt,
    insert_pairs_from fuel qt sp_a followers
    = option_map snd (insert_all fuel qt (pairs_from sp_a followers)).
Proof.
  unfold pairs_from.
  induction followers as [| sp_b rest IH]; intro qt;
    cbn [insert_pairs_from filter map insert_all]; [reflexivity |].
  destruct (negb (spike_equals sp_a sp_b)); cbn [map insert_all]; [| apply IH].
  destruct (QTreeInsert fuel qt (create_spike_pair sp_a sp_b)) as [[b qt1] |];
    [| reflexivity].
  rewrite IH. destruct (insert_all fuel qt1 _) as [[bs qt2] |]; reflexivity.
Qed.

Lemma insert_spike_pairs_spec (fuel : nat) (list_head : list Spike) :
  forall qt,
    insert_spike_pairs fuel qt list_head
    = option_map snd (insert_all fuel qt (pairs_of list_head)).
Proof.
  induction list_head as [| sp_a rest IH]; intro qt;
    cbn [insert_spike_pairs pairs_of]; [reflexivity |].
  rewrite insert_pairs_from_spec, insert_all_app.
  destruct (insert_all fuel qt (pairs_from sp_a rest)) as [[f1 qt1] |];
    cbn [option_map snd]; [| reflexivity].
  rewrite IH. destruct (insert_all fuel qt1 (pairs_of rest)) as [[f2 qt2] |];
    reflexivity.
Qed.

Lemma spike_equals_iff (a b : Spike) : spike_equals a b = true <-> a = b.
Proof.
  unfold spike_equals. rewrite andb_true_iff, !Z.eqb_eq.
  destruct a, b; cbn. split; [intros [-> ->]; reflexivity | intros [= -> ->]; auto].
Qed.

Lemma in_pairs_of (spp : SpikePair) (spikes : list Spike) :
  In spp (pairs_of spikes) ->
  In (sp1 spp) spikes /\ In (sp2 spp) spikes /\ sp1 spp <> sp2 spp.
Proof.
  induction spikes as [| sp_a rest IH]; cbn [pairs_of]; [intros [] |].
  intro H. apply in_app_or in H. destruct H as [H | H].
  - unfold pairs_from in H. apply in_map_iff in H. destruct H as (sp_b & <- & H).
    apply filter_In in H. destruct H as [Hin Hne]. cbn.
    split; [left; reflexivity |]. split; [right; exact Hin |].
    intro E. apply spike_equals_iff in E. rewrite E in Hne. discriminate Hne.
  - destruct (IH H) as (H1 & H2 & H3). cbn. auto.
Qed.

(** [insert_spike_pairs] is the insertion, in order, of the pairs of the
    doubly nested walk; each of them is made of two different spikes of the
    list, and a list of [n] spikes gives at most [n * (n - 1) / 2] pairs. *)
Theorem insert_spike_pairs_inserts_pairs_of (fuel : nat) (qt : QuadTree)
        (list_head : list Spike) :
  insert_spike_pairs fuel qt list_head
  = option_map snd (insert_all fuel qt (pairs_of list_head)) /\
  Forall (fun spp => In (sp1 spp) list_head /\ In (sp2 spp) list_head /\
                     sp1 spp <> sp2 spp) (pairs_of list_head) /\
  (2 * length (pairs_of list_head) <= length list_head * (length list_head - 1))%nat.
Proof.
  split; [apply insert_spike_pairs_spec |]. split.
  - apply Forall_forall. intros spp H. apply in_pairs_of, H.
  - induction list_head as [| sp_a rest IH]; cbn [pairs_of length]; [lia |].
    rewrite length_app. unfold pairs_from. rewrite length_map.
    pose proof (filter_length_le (fun sp_b => negb (spike_equals sp_a sp_b)) rest).
    nia.
Qed.

(** ** The enumeration of the second phase *)

Section Enumeration.

Variable g_raster : SpikeRaster.
Variable g_network : PhysNetwork.
Variable g_qtarray : list QuadTree.
Variables tau thresh c_radius : float.

Lemma query_presyns_partial (spp_post : SpikePair) (presyn : list Synapse) :
  forall eb eb',
    query_presyns g_qtarray tau thresh c_radius spp_post presyn eb = Some eb' ->
    eb' = fold_left add_edge
                    (flat_map (edges_for_synapse g_qtarray tau thresh c_radius spp_post)
                              presyn) eb.
Proof.
  induction presyn as [| syn rest IH]; intros eb eb'; cbn [query_presyns flat_map].
  - intros [= <-]. reflexivity.
  - destruct (nth_error g_qtarray (Z.to_nat (src_id syn))) as [qt |] eqn:E;
      [| discriminate].
    intro H. apply IH in H. rewrite H, fold_left_app, QTreeMapGNATEdge_adds.
    unfold edges_for_synapse, query_box.
    rewrite (nth_error_nth _ _ _ E). reflexivity.
Qed.

Lemma query_presyns_total (spp_post : SpikePair) (presyn : list Synapse) :
  (forall syn, In syn presyn -> (Z.to_nat (src_id syn) < length g_qtarray)%nat) ->
  forall eb, exists eb',
      query_presyns g_qtarray tau thresh c_radius spp_post presyn eb = Some eb'.
Proof.
  induction presyn as [| syn rest IH]; intros H eb; cbn [query_presyns].
  - eauto.
  - destruct (nth_error g_qtarray (Z.to_nat (src_id syn))) as [qt |] eqn:E.
    + apply IH. intros s Hs. apply H. right. exact Hs.
    + apply nth_error_None in E. specialize (H syn (or_introl eq_refl)). lia.
Qed.

Lemma post_pairs_from_partial (tgt : nat) (sp_a : Spike) (followers : list Spike) :
  forall eb eb',
    post_pairs_from g_network g_qtarray tau thresh c_radius tgt sp_a followers eb
    = Some eb' ->
    eb' = fold_left add_edge
                    (flat_map (edges_for_post g_network g_qtarray tau thresh c_radius tgt)
                              (pairs_from sp_a followers)) eb.
Proof.
  unfold pairs_from.
  induction followers as [| sp_b rest IH]; intros eb eb';
    cbn [post_pairs_from filter map flat_map].
  - intros [= <-]. reflexivity.
  - destruct (negb (spike_equals sp_a sp_b)); [| apply IH].
    destruct (query_presyns g_qtarray tau thresh c_radius
                            (create_spike_pair sp_a sp_b)
                            (nth tgt (presyns g_network) []) eb) as [eb1 |] eqn:E;
      [| discriminate].
    intro H. apply IH in H. apply query_presyns_partial in E.
    cbn [map flat_map]. rewrite fold_left_app, H, E. reflexivity.
Qed.

Lemma post_pairs_from_total (tgt : nat) (sp_a : Spike) (followers : list Spike) :
  sources_in_range g_network g_qtarray ->
  forall eb, exists eb',
      post_pairs_from g_network g_qtarray tau thresh c_radius tgt sp_a followers eb
      = Some eb'.
Proof.
  intro Hsrc.
  induction followers as [| sp_b rest IH]; intro eb; cbn [post_pairs_from].
  - eauto.
  - destruct (negb (spike_equals sp_a sp_b)); [| apply IH].
    destruct (query_presyns_total (create_spike_pair sp_a sp_b)
                                  (nth tgt (presyns g_network) []) (Hsrc tgt) eb)
      as (eb1 & ->).
    apply IH.
Qed.

Lemma post_pairs_partial (tgt : nat) (spikes : list Spike) :
  forall eb eb',
    post_pairs g_network g_qtarray tau thresh c_radius tgt spikes eb = Some eb' ->
    eb' = fold_left add_edge
                    (flat_map (edges_for_post g_network g_qtarray tau thresh c_radius tgt)
                              (pairs_of spikes)) eb.
Proof.
  induction spikes as [| sp_a rest IH]; intros eb eb'; cbn [post_pairs pairs_of].
  - intros [= <-]. reflexivity.
  - destruct (post_pairs_from g_network g_qtarray tau thresh c_radius tgt sp_a rest eb)
      as [eb1 |] eqn:E; [| discriminate].
    intro H. apply IH in H. apply post_pairs_from_partial in E.
    rewrite flat_map_app, fold_left_app, H, E. reflexivity.
Qed.

Lemma post_pairs_total (tgt : nat) (spikes : list Spike) :
  sources_in_range g_network g_qtarray ->
  forall eb, exists eb',
      post_pairs g_network g_qtarray tau thresh c_radius tgt spikes eb = Some eb'.
Proof.
  intro Hsrc. induction spikes as [| sp_a rest IH]; intro eb; cbn [post_pairs].
  - eauto.
  - destruct (post_pairs_from_total tgt sp_a rest Hsrc eb) as (eb1 & ->). apply IH.
Qed.

Lemma post_cells_partial (idxs : list nat) :
  forall eb eb',
    post_cells g_raster g_network g_qtarray tau thresh c_radius idxs eb = Some eb' ->
    eb' = fold_left add_edge
                    (flat_map (edges_for_cell g_raster g_network g_qtarray
                                              tau thresh c_radius) idxs) eb.
Proof.
  induction idxs as [| v rest IH]; intros eb eb'; cbn [post_cells flat_map].
  - intros [= <-]. reflexivity.
  - destruct (post_pairs g_network g_qtarray tau thresh c_radius v
                         (nth v (sp_lists g_raster) []) eb) as [eb1 |] eqn:E;
      [| discriminate].
    intro H. apply IH in H. apply post_pairs_partial in E.
    rewrite fold_left_app, H, E. reflexivity.
Qed.

Lemma post_cells_total (idxs : list nat) :
  sources_in_range g_network g_qtarray ->
  forall eb, exists eb',
      post_cells g_raster g_network g_qtarray tau thresh c_radius idxs eb = Some eb'.
Proof.
  intro Hsrc. induction idxs as [| v rest IH]; intro eb; cbn [post_cells].
  - eauto.
  - destruct (post_pairs_total v (nth v (sp_lists g_raster) []) Hsrc eb)
      as (eb1 & ->).
    apply IH.
Qed.

Lemma compute_gnat_edges_partial (eb eb' : EdgeBuffer) :
  compute_gnat_edges g_raster g_network g_qtarray tau thresh c_radius eb = Some eb' ->
  finalize_edge_buffer eb'
  = finalize_edge_buffer eb
    ++ map fprint_GNAT_edge
           (expected_edges g_raster g_network g_qtarray tau thresh c_radius).
Proof.
  unfold compute_gnat_edges. intro H. apply post_cells_partial in H.
  rewrite H. apply finalize_add_edges.
Qed.

(** For globals as [main] sets them up (a spike list and a synapse list for
    each of the fewer than 2^32 cells), the three nested loops of
    [compute_gnat_edges] write, after what the file held, one line per edge
    of [expected_edges], in that order: for each post cell, each of its
    pairs, each of its presynaptic partners and each pre pair that the query
    on the partner's quadtree visits and that passes [GNAT_test_for_edge].
    The run ends without a fault when every presynaptic partner on file has
    a quadtree. *)
Theorem compute_gnat_edges_emits_expected (eb : EdgeBuffer) :
  (pn_n_cells g_network < 2 ^ 32)%Z ->
  length (sp_lists g_raster) = Z.to_nat (pn_n_cells g_network) ->
  length (presyns g_network) = Z.to_nat (pn_n_cells g_network) ->
  (forall eb',
      compute_gnat_edges g_raster g_network g_qtarray tau thresh c_radius eb
      = Some eb' ->
      finalize_edge_buffer eb'
      = finalize_edge_buffer eb
        ++ map fprint_GNAT_edge
               (expected_edges g_raster g_network g_qtarray tau thresh c_radius)) /\
  (sources_in_range g_network g_qtarray ->
   exists eb',
     compute_gnat_edges g_raster g_network g_qtarray tau thresh c_radius eb
     = Some eb').
Proof.
  intros _ _ _. split; [intro eb'; apply compute_gnat_edges_partial |].
  intro Hsrc. apply post_cells_total, Hsrc.
Qed.

End Enumeration.

Lemma compute_gnat_edges_emits_expected_witness :
  (forall eb',
      compute_gnat_edges scenario_D_raster scenario_D_net scenario_D_qtarray 1 1 100
                         initialize_edge_buffer = Some eb' ->
      finalize_edge_buffer eb'
      = finalize_edge_buffer initialize_edge_buffer
        ++ map fprint_GNAT_edge
               (expected_edges scenario_D_raster scenario_D_net scenario_D_qtarray
                               1 1 100)) /\
  (sources_in_range scenario_D_net scenario_D_qtarray ->
   exists eb',
     compute_gnat_edges scenario_D_raster scenario_D_net scenario_D_qtarray 1 1 100
                        initialize_edge_buffer = Some eb').
Proof.
  apply (compute_gnat_edges_emits_expected scenario_D_raster scenario_D_net
                                           scenario_D_qtarray 1 1 100
                                           initialize_edge_buffer);
    vm_compute; reflexivity.
Defined.

(** ** The run as a whole *)

Lemma RasterReadFile_nth (_n_cells : Z) (lines : list (Z * Z * Z))
      (sr : SpikeRaster) :
  RasterReadFile (RasterInit _n_cells) lines = Some sr ->
  forall i, nth i (sp_lists sr) [] = spikes_of_neuron i (spikes_of_lines lines).
Proof.
  unfold RasterReadFile.
  destruct (RasterAppendLines (RasterInit _n_cells) lines) as [sr1 |] eqn:E;
    [| discriminate].
  intros [= <-] i. apply RasterAppendLines_lists in E; [| cbn; apply repeat_length].
  destruct E as (_ & _ & _ & H). cbn [sp_lists RasterReverse RasterInit] in *.
  assert (nth i (map SpikeListReverse (sp_lists sr1)) []
          = SpikeListReverse (nth i (sp_lists sr1) [])) as ->.
  { change [] with (SpikeListReverse []) at 1. apply map_nth. }
  rewrite H, nth_repeat_nil, app_nil_r. unfold SpikeListReverse.
  rewrite rev_append_rev, app_nil_r. apply rev_involutive.
Qed.

Lemma in_spikes_of_neuron (i : nat) (sp : Spike) (spikes : list Spike) :
  In sp (spikes_of_neuron i spikes) -> In sp spikes /\ n_id sp = Z.of_nat i.
Proof.
  unfold spikes_of_neuron. intro H. apply filter_In in H.
  destruct H as [H E]. split; [exact H | apply Z.eqb_eq, E].
Qed.

Lemma in_visited_stored (r : BoundingBox) (x : SpikePair) (qt : QuadTree) :
  In x (visited qt r) -> In x (stored qt).
Proof.
  induction qt as [cap bb ps | cap bb ps nw IHnw sw IHsw ne IHne se IHse].
  - rewrite visited_Leaf. destruct (BBoxIntersects bb r); [exact (fun H => H) | intros []].
  - rewrite visited_Quad. cbn [stored].
    destruct (BBoxIntersects bb r); [| intros []].
    rewrite !in_app_iff. intuition.
Qed.

Lemma build_quadtrees_nth (fuel : nat) (bbox : BoundingBox)
      (lists : list (list Spike)) (n : nat) :
  forall start qts,
    build_quadtrees fuel bbox lists (seq start n) = Some qts ->
    forall j qt,
      nth_error qts j = Some qt ->
      exists flags,
        insert_all fuel (QTreeCreate bbox) (pairs_of (nth (start + j) lists []))
        = Some (flags, qt).
Proof.
  induction n as [| n IH]; intros start qts; cbn [seq build_quadtrees].
  - intros [= <-] [| j] qt; discriminate.
  - rewrite insert_spike_pairs_spec.
    destruct (insert_all fuel (QTreeCreate bbox) (pairs_of (nth start lists [])))
      as [[flags q0] |] eqn:E0; cbn [option_map snd]; [| discriminate].
    destruct (build_quadtrees fuel bbox lists (seq (S start) n)) as [qs |] eqn:E1;
      [| discriminate].
    intros [= <-] [| j] qt; cbn [nth_error].
    + intros [= <-]. exists flags. rewrite Nat.add_0_r. exact E0.
    + intro H. destruct (IH _ _ E1 j qt H) as (fl & Hfl). exists fl.
      replace (start + S j)%nat with (S start + j)%nat by lia. exact Hfl.
Qed.

Lemma in_stored_inserted (fuel : nat) (bbox : BoundingBox) (l : list SpikePair)
      (flags : list bool) (qt : QuadTree) (x : SpikePair) :
  insert_all fuel (QTreeCreate bbox) l = Some (flags, qt) ->
  In x (stored qt) -> In x l.
Proof.
  intros E Hx. apply insert_all_effect in E. destruct E as (_ & _ & _ & C & _).
  specialize (C x). pose proof (occurrences_accepted x flags l) as A.
  cbn [stored QTreeCreate] in C. change (occurrences x []) with 0%nat in C.
  apply (count_occ_In SpikePair_eq_dec) in Hx.
  apply (count_occ_In SpikePair_eq_dec). unfold occurrences in *. lia.
Qed.

Lemma synapse_of_lines_src_nonneg (log : float -> float)
      (lines : list (Z * Z * float * float)) (syn : Synapse) :
  In syn (synapses_of_lines log lines) -> (0 <= src_id syn)%Z.
Proof.
  unfold synapses_of_lines. intro H. apply in_map_iff in H.
  destruct H as ([[[s t] w] d] & <- & _). cbn. apply Z.mod_pos_bound. reflexivity.
Qed.

(** For a cell count that fits 32 bits, every line that a run of
    [gnatfinder] writes is sound: its six numbers are the ids of a synapse
    on file and the timestamps of two different spikes of the source and of
    two different spikes of the target, and [compute_gamma] is within the
    threshold on the first spikes and on the second spikes. *)
Theorem gnatfinder_writes_sound_lines (log : float -> float) (fuel : nat)
        (n_cells_arg : Z) (spike_lines : list (Z * Z * Z))
        (network_lines : list (Z * Z * float * float))
        (tau thresh c_radius : float) (out : list (list Z)) :
  (0 <= n_cells_arg < 2 ^ 32)%Z ->
  gnatfinder log fuel n_cells_arg spike_lines network_lines tau thresh c_radius
  = Some out ->
  Forall (sound_line log spike_lines network_lines tau thresh) out.
Proof.
  intros _. unfold gnatfinder. cbv zeta.
  destruct (RasterReadFile _ spike_lines) as [sr |] eqn:Er; [| discriminate].
  destruct (PhysNetworkReadFile log _ network_lines) as [pn |] eqn:En;
    [| discriminate].
  destruct (build_quadtrees fuel _ (sp_lists sr) _) as [qts |] eqn:Eb;
    [| discriminate].
  destruct (compute_gnat_edges sr pn qts tau thresh c_radius initialize_edge_buffer)
    as [eb |] eqn:Ec; [| discriminate].
  intros [= <-]. apply compute_gnat_edges_partial in Ec. rewrite Ec. cbn [app].
  pose proof (RasterReadFile_nth _ _ _ Er) as Hr.
  apply PhysNetworkReadFile_lists in En; [| cbn; apply repeat_length].
  destruct En as (_ & _ & _ & Hn).
  apply Forall_forall. intros line Hline.
  apply in_map_iff in Hline. destruct Hline as (e & <- & He).
  unfold expected_edges in He. apply in_flat_map in He. destruct He as (v & _ & He).
  unfold edges_for_cell in He. apply in_flat_map in He.
  destruct He as (post & Hpost & He).
  unfold edges_for_post in He. apply in_flat_map in He. destruct He as (syn & Hsyn & He).
  unfold edges_for_synapse, edges_of_query in He. apply in_map_iff in He.
  destruct He as (pre & <- & Hpre). apply filter_In in Hpre.
  destruct Hpre as [Hvis Htest]. apply in_visited_stored in Hvis.
  (* the synapse *)
  rewrite Hn in Hsyn. cbn [presyns PhysNetworkInit] in Hsyn.
  rewrite nth_repeat_nil, app_nil_r in Hsyn. apply in_rev in Hsyn.
  unfold synapses_onto in Hsyn. apply filter_In in Hsyn.
  destruct Hsyn as [Hsyn Htgt]. apply Z.eqb_eq in Htgt.
  pose proof (synapse_of_lines_src_nonneg _ _ _ Hsyn) as Hsrc.
  (* the post pair *)
  rewrite Hr in Hpost. apply in_pairs_of in Hpost.
  destruct Hpost as (Hb1 & Hb2 & Hbne).
  apply in_spikes_of_neuron in Hb1, Hb2.
  destruct Hb1 as [Hb1 Nb1], Hb2 as [Hb2 Nb2].
  (* the pre pair *)
  destruct (nth_error qts (Z.to_nat (src_id syn))) as [qt |] eqn:Eq.
  2: { apply nth_error_None in Eq. rewrite nth_overflow in Hvis by exact Eq.
       destruct Hvis. }
  rewrite (nth_error_nth _ _ _ Eq) in Hvis.
  destruct (build_quadtrees_nth _ _ _ _ _ _ Eb _ _ Eq) as (flags & Ei).
  apply (in_stored_inserted _ _ _ _ _ _ Ei) in Hvis. cbn [Nat.add] in Hvis.
  rewrite Hr in Hvis. apply in_pairs_of in Hvis.
  destruct Hvis as (Ha1 & Ha2 & Hane).
  apply in_spikes_of_neuron in Ha1, Ha2.
  destruct Ha1 as [Ha1 Na1], Ha2 as [Ha2 Na2].
  rewrite Z2Nat.id in Na1, Na2 by exact Hsrc.
  unfold GNAT_test_for_edge in Htest. cbv zeta in Htest.
  apply andb_true_iff in Htest. destruct Htest as [G1 G2].
  apply fle_iff in G1, G2.
  exists syn, (sp1 pre), (sp2 pre), (sp1 post), (sp2 post).
  split.
  { unfold fprint_GNAT_edge. cbn [spp_pre spp_post]. congruence. }
  split; [exact Hsyn |]. split; [auto |]. split; [repeat split; congruence |].
  split; [| split; assumption].
  split.
  - intro Et. apply Hane. destruct (sp1 pre), (sp2 pre). cbn in *. congruence.
  - intro Et. apply Hbne. destruct (sp1 post), (sp2 post). cbn in *. congruence.
Qed.

Lemma gnatfinder_writes_sound_lines_witness :
  Forall (sound_line (fun _ => 0) scenario_D_spikes scenario_D_network 1 1)
         [[0; 10; 20; 1; 11; 21]; [0; 10; 30; 1; 11; 31]; [0; 20; 30; 1; 21; 31]]%Z.
Proof.
  apply (gnatfinder_writes_sound_lines (fun _ => 0) 1 2 scenario_D_spikes
                                       scenario_D_network 1 1 100).
  - lia.
  - vm_compute. reflexivity.
Defined.

(** ** When the run ends without a fault *)

(** A selection of spikes of pairwise different timestamps has pairwise
    different timestamps. *)
Lemma filter_keeps_distinct_stamps (keep : Spike -> bool) (spikes : list Spike) :
  NoDup (map ts spikes) -> NoDup (map ts (filter keep spikes)).
Proof.
  induction spikes as [| sp rest IH]; cbn [map filter]; [exact (fun H => H) |].
  intro N. apply NoDup_cons_iff in N. destruct N as [Fresh N].
  destruct (keep sp); cbn [map]; [| apply IH, N].
  constructor; [| apply IH, N].
  intro H. apply Fresh. apply in_map_iff in H. destruct H as (x & E & Hx).
  apply filter_In in Hx. rewrite <- E. apply in_map, Hx.
Qed.

(** Spikes of pairwise different timestamps give pairs of pairwise different
    points. *)
Lemma pairs_of_points_distinct (spikes : list Spike) :
  NoDup (map ts spikes) -> NoDup (map point (pairs_of spikes)).
Proof.
  induction spikes as [| sp_a rest IH]; cbn [map pairs_of]; [constructor |].
  intro N. apply NoDup_cons_iff in N. destruct N as [Fresh N].
  rewrite map_app. apply NoDup_app.
  - unfold pairs_from. rewrite map_map.
    pose proof (filter_keeps_distinct_stamps
                  (fun sp_b => negb (spike_equals sp_a sp_b)) rest N)
      as Nf.
    induction (filter (fun sp_b => negb (spike_equals sp_a sp_b)) rest)
      as [| b l IHl]; cbn [map] in *; [constructor |].
    apply NoDup_cons_iff in Nf. destruct Nf as [Fb Nf].
    constructor; [| apply IHl, Nf].
    intro H. apply Fb. apply in_map_iff in H. destruct H as (x & E & Hx).
    unfold point in E. cbn in E. injection E as E. rewrite <- E. apply in_map, Hx.
  - apply IH, N.
  - intros p H1 H2. apply in_map_iff in H1. destruct H1 as (x & <- & Hx).
    unfold pairs_from in Hx. apply in_map_iff in Hx. destruct Hx as (b & <- & _).
    apply in_map_iff in H2. destruct H2 as (y & E & Hy).
    apply in_pairs_of in Hy. destruct Hy as (Hy & _).
    apply Fresh. unfold point in E. cbn in E. injection E as E1 _.
    rewrite <- E1. apply in_map, Hy.
Qed.

Lemma build_quadtrees_returns (fuel : nat) (bbox : BoundingBox)
      (lists : list (list Spike)) (idxs : list nat) :
  (depth_bound bbox <= fuel)%nat ->
  (forall i, NoDup (map ts (nth i lists []))) ->
  exists qts, build_quadtrees fuel bbox lists idxs = Some qts /\
              length qts = length idxs.
Proof.
  intros Hfuel N. induction idxs as [| idx rest IH]; cbn [build_quadtrees].
  - exists []. split; reflexivity.
  - rewrite insert_spike_pairs_spec.
    destruct (insert_all_returns fuel (Z.to_nat (Z.log2_up (Qceiling (w2 bbox))))
                                 (pairs_of (nth idx lists [])) (QTreeCreate bbox) [])
      as (flags & qt & E & _).
    + exact Hfuel.
    + cbn. unfold leaf_ok, QT_MAX_CAP. cbn.
      split; [reflexivity |]. split; [lia |]. split; constructor.
    + apply depth_bound_covers.
    + apply pairs_of_points_distinct, N.
    + intros s _ [].
    + rewrite E. cbn [option_map snd]. destruct IH as (qts & -> & L).
      exists (qt :: qts). split; [reflexivity | cbn; congruence].
Qed.

Lemma depth_bound_of_span (lo hi tmin tmax : Z) (c : float) :
  (lo <= tmin)%Z -> (tmin <= tmax)%Z -> (tmax <= hi)%Z ->
  (depth_bound (BBoxCreate c c (float_of_long (tmax - tmin) / 2)%Q)
   <= Z.to_nat (Z.log2_up (hi - lo)) + 2)%nat.
Proof.
  intros H1 H2 H3. unfold depth_bound, BBoxCreate, float_of_long. cbn [w2].
  apply Nat.add_le_mono_r, Z2Nat.inj_le; try apply Z.log2_up_nonneg.
  apply Z.log2_up_le_mono.
  apply Z.le_trans with (tmax - tmin)%Z; [| lia].
  rewrite <- (Qceiling_Z (tmax - tmin)) at 2. apply Qceiling_resp_le.
  assert (0 <= inject_Z (tmax - tmin)) as P.
  { change 0 with (inject_Z 0). rewrite <- Zle_Qle. lia. }
  generalize dependent (inject_Z (tmax - tmin)). intros q P.
  apply Qle_shift_div_r; [reflexivity | lra].
Qed.


